(** * GraphBuilder: from a pipeline to a quantum graph

    A shallow embedding of [lsst.pipe.base.graphBuilder] and the properties
    of its graph construction: the global reduction of the dataset types,
    the resolution of task classes and init-inputs, the grouping of the
    catalog rows into quanta and the output-existence policy. *)

From stdpp Require Import gmap strings list sorting fin_maps fin_sets.

Local Open Scope string_scope.
Local Open Scope list_scope.
Local Open Scope Z_scope.
Local Open Scope nat_scope.

(** ** Data model *)

(** [lsst.daf.butler.DatasetType]: hashed and compared by its attributes. *)
Record DatasetType : Type := mkDatasetType {
  name : string;
  dimensions : list string
}.

Global Instance DatasetType_eq_dec : EqDecision DatasetType.
Proof. solve_decision. Defined.

Global Instance DatasetType_countable : Countable DatasetType.
Proof.
  refine (inj_countable' (λ d, (name d, dimensions d))
                         (λ p, mkDatasetType p.1 p.2) _).
  by intros [].
Defined.

(** A data coordinate: the dict [dataId] from dimension name to value. *)
Abbreviation DataId := (gmap string Z).

(** [lsst.daf.butler.DatasetRef]; [ref_id] is the attribute [id], which is
    [None] until the dataset exists. *)
Record DatasetRef : Type := mkDatasetRef {
  datasetType : DatasetType;
  dataId : DataId;
  ref_id : option Z
}.

Global Instance DatasetRef_eq_dec : EqDecision DatasetRef.
Proof. solve_decision. Defined.

(** One row of [Registry.selectDimensions]: [row.dataId] and
    [row.datasetRefs]. *)
Record DimensionRow : Type := mkRow {
  row_dataId : DataId;
  datasetRefs : gmap DatasetType DatasetRef
}.

(** The task configuration, as far as the builder reads it:
    [config.quantum.dimensions]. *)
Record Config : Type := mkConfig {
  quantum_dimensions : list string
}.

(** A dataset type descriptor, the values of the dicts that the
    [get...DatasetTypes] class methods return. *)
Record DatasetTypeDescriptor : Type := mkDescr {
  descr_datasetType : DatasetType
}.

Inductive IoKind : Type := Input | Output | InitInput | InitOutput.

Global Instance IoKind_eq_dec : EqDecision IoKind.
Proof. solve_decision. Defined.

(** A task class: its four class methods [get<kind>DatasetTypes(config)],
    each returning a dict (name to descriptor, in insertion order) or
    [None]. *)
Record TaskClass : Type := mkTaskClass {
  getDatasetTypes : IoKind → Config → option (list (string * DatasetTypeDescriptor))
}.

Record TaskDef : Type := mkTaskDef {
  taskName : string;
  config : Config;
  taskClass : option TaskClass;
  label : string
}.

(** The namedtuple [_TaskDatasetTypes]. *)
Record _TaskDatasetTypes : Type := mkTaskDatasetTypes {
  taskDef : TaskDef;
  inputs : list DatasetType;
  outputs : list DatasetType;
  initInputs : list DatasetType;
  initOutputs : list DatasetType
}.

(** [DatasetOriginInfo]: the input collections to search, per dataset type
    name, in priority order. *)
Record DatasetOriginInfo : Type := mkOrigin {
  getInputCollections : string → list string
}.

(** ** Exceptions *)

Inductive Exception : Type :=
  | KeyError
  | AttributeError
  | UserExpressionError (expr : string) (exc : string)
  | GraphBuilderError (msg : string)
  | OutputExistsError (taskName : string) (refs : list DatasetRef).

Abbreviation Exc := (sum Exception).

Global Instance Exc_ret : MRet Exc := λ A x, inr x.
Global Instance Exc_bind : MBind Exc := λ A B f m,
  match m with inl e => inl e | inr x => f x end.

(** Subscripting that raises [KeyError]. *)
Definition subscript {A} (o : option A) : Exc A :=
  match o with Some x => inr x | None => inl KeyError end.

(** ** Python dicts with their insertion order *)

Section PyDict.
Context {K V : Type} `{EqDecision K}.

Definition pydict : Type := list (K * V).

Fixpoint dict_get (k : K) (d : pydict) : option V :=
  match d with
  | [] => None
  | (k', v) :: d' => if decide (k = k') then Some v else dict_get k d'
  end.

(** [d[k] = v]: an existing key keeps its position, a new one goes last. *)
Fixpoint dict_set (k : K) (v : V) (d : pydict) : pydict :=
  match d with
  | [] => [(k, v)]
  | (k', v') :: d' =>
      if decide (k = k') then (k, v) :: d' else (k', v') :: dict_set k v d'
  end.

Definition dict_keys (d : pydict) : list K := d.*1.
Definition dict_values (d : pydict) : list V := d.*2.

(** [d.setdefault(k, dflt)]: the dict afterwards, and the value at [k]. *)
Definition dict_setdefault (k : K) (dflt : V) (d : pydict) : pydict * V :=
  match dict_get k d with
  | Some v => (d, v)
  | None => (dict_set k dflt d, dflt)
  end.
End PyDict.
Global Arguments pydict : clear implicits.

(** ** The global reduction of the dataset types *)

(** The four name sets and the table [allDatasetTypes] of the loop in
    [_makeFullIODatasetTypes]. *)
Record IoState : Type := mkIoState {
  ioSet : IoKind → gset string;
  allDatasetTypes : gmap string DatasetType
}.

Definition ioState0 : IoState := mkIoState (λ _, ∅) ∅.

(** [getattr(taskDs, ioType)] *)
Definition getattr (taskDs : _TaskDatasetTypes) (ioType : IoKind) : list DatasetType :=
  match ioType with
  | Input => inputs taskDs
  | Output => outputs taskDs
  | InitInput => initInputs taskDs
  | InitOutput => initOutputs taskDs
  end.

(** The body of the innermost loop: [ioSet.add(dsType.name)] and
    [allDatasetTypes[dsType.name] = dsType]. *)
Definition addDatasetType (ioType : IoKind) (st : IoState) (dsType : DatasetType) : IoState :=
  mkIoState
    (λ k, if decide (k = ioType) then {[ name dsType ]} ∪ ioSet st k else ioSet st k)
    (<[ name dsType := dsType ]> (allDatasetTypes st)).

Definition ioKinds : list IoKind := [Input; Output; InitInput; InitOutput].

Definition addTask (st : IoState) (taskDs : _TaskDatasetTypes) : IoState :=
  foldl (λ st ioType, foldl (addDatasetType ioType) st (getattr taskDs ioType))
        st ioKinds.

Definition collectIo (taskDatasets : list _TaskDatasetTypes) : IoState :=
  foldl addTask ioState0 taskDatasets.

(** [set(allDatasetTypes[name] for name in names)] *)
Definition canonical (tbl : gmap string DatasetType) (names : gset string)
  : Exc (gset DatasetType) :=
  dsTypes ← mapM (λ n, subscript (tbl !! n)) (elements names);
  mret (list_to_set dsTypes).

Definition _makeFullIODatasetTypes (taskDatasets : list _TaskDatasetTypes)
  : Exc (gset DatasetType * gset DatasetType * gset DatasetType * gset DatasetType) :=
  let st := collectIo taskDatasets in
  let inputs := ioSet st Input ∖ ioSet st Output in
  let initInputs := ioSet st InitInput ∖ ioSet st InitOutput in
  inputs ← canonical (allDatasetTypes st) inputs;
  outputs ← canonical (allDatasetTypes st) (ioSet st Output);
  initInputs ← canonical (allDatasetTypes st) initInputs;
  initOutputs ← canonical (allDatasetTypes st) (ioSet st InitOutput);
  mret (inputs, outputs, initInputs, initOutputs).

(** ** Collaborators and the trace of the calls made to them *)

Inductive Event : Type :=
  | EvLoadTaskClass (taskName : string)
  | EvParse (userQuery : string)
  | EvSelectDimensions (expr : option string) (inputs outputs : gset DatasetType)
  | EvFind (collection : string) (dsType : DatasetType).

Global Instance Event_eq_dec : EqDecision Event.
Proof. solve_decision. Defined.

(** A computation that calls collaborators: the calls it made, in order, and
    its value or the exception it raised. *)
Record Run (A : Type) : Type := MkRun {
  trace : list Event;
  result : Exc A
}.
Global Arguments MkRun {A} _ _.
Global Arguments trace {A} _.
Global Arguments result {A} _.

Global Instance Run_ret : MRet Run := λ A x, MkRun [] (inr x).
Global Instance Run_bind : MBind Run := λ A B f m,
  match result m with
  | inl e => MkRun (trace m) (inl e)
  | inr x => MkRun (trace m ++ trace (f x)) (result (f x))
  end.

Definition emit (ev : Event) : Run unit := MkRun [ev] (inr ()).
Definition raise {A} (e : Exception) : Run A := MkRun [] (inl e).
Definition lift {A} (m : Exc A) : Run A := MkRun [] m.

(** [TaskFactory.loadTaskClass(taskName)] returns the class and its
    fully-qualified name. *)
Record TaskFactory : Type := mkTaskFactory {
  loadTaskClass : string → TaskClass * string
}.

(** [lsst.daf.butler.Registry], as far as the builder calls it;
    [registry_dimensions] maps a dimension name to its [links()]. *)
Record Registry : Type := mkRegistry {
  registry_dimensions : gmap string (list string);
  selectDimensions : DatasetOriginInfo → option string →
                     gset DatasetType → gset DatasetType → list DimensionRow;
  find : string → DatasetType → option DatasetRef
}.

(** The attributes set by [GraphBuilder.__init__]; [self.dimensions] is
    [registry.dimensions]. *)
Record GraphBuilder : Type := mkGraphBuilder {
  taskFactory : TaskFactory;
  registry : Registry;
  skipExisting : bool
}.

(** ** The graph *)

(** [lsst.daf.butler.Quantum], as far as the builder fills it: the references
    in the order in which [addOutput] and [addPredictedInput] receive them. *)
Record Quantum : Type := mkQuantum {
  predictedInputs : list DatasetRef;
  quantum_outputs : list DatasetRef
}.

Definition addOutput (quantum : Quantum) (ref : DatasetRef) : Quantum :=
  mkQuantum (predictedInputs quantum) (quantum_outputs quantum ++ [ref]).

Definition addPredictedInput (quantum : Quantum) (ref : DatasetRef) : Quantum :=
  mkQuantum (predictedInputs quantum ++ [ref]) (quantum_outputs quantum).

(** Modelled from the spec: [QuantumGraphTaskNodes] of the module [graph],
    "one task's quanta: TaskDef, ordered list of Quantum". *)
Record QuantumGraphTaskNodes : Type := mkNodes {
  nodes_taskDef : TaskDef;
  quanta : list Quantum
}.

(** Modelled from the spec: [QuantumGraph] of the module [graph], "ordered
    list of QuantumGraphTaskNodes (pipeline order), global input/output
    DatasetType sets, global init-input DatasetRef list, global init-output
    DatasetRef list". *)
Record QuantumGraph : Type := mkGraph {
  graph_nodes : list QuantumGraphTaskNodes;
  _inputDatasetTypes : gset DatasetType;
  _outputDatasetTypes : gset DatasetType;
  graph_initInputs : list DatasetRef;
  graph_initOutputs : list DatasetRef
}.

(** ** Task classes: [_loadTaskClass] on the object store *)

(** The [TaskDef] objects live in a store; a pipeline holds references. *)
Abbreviation Loc := positive.
Abbreviation Store := (gmap positive TaskDef).

(** Reading through a reference. *)
Definition deref (h : Store) (l : Loc) : Exc TaskDef := subscript (h !! l).

(** [copy.copy(obj)]: a new object with the same attribute values. *)
Definition copy_copy (h : Store) (obj : TaskDef) : Store * Loc :=
  let l := fresh (dom h) in (<[ l := obj ]> h, l).

Definition set_taskClass (tClass : TaskClass) (obj : TaskDef) : TaskDef :=
  mkTaskDef (taskName obj) (config obj) (Some tClass) (label obj).

Definition set_taskName (tName : string) (obj : TaskDef) : TaskDef :=
  mkTaskDef tName (config obj) (taskClass obj) (label obj).

Definition _loadTaskClass (self : GraphBuilder) (h : Store) (taskDef : Loc)
  : Run (Store * Loc) :=
  obj ← lift (deref h taskDef);
  match taskClass obj with
  | None =>
      _ ← emit (EvLoadTaskClass (taskName obj));
      let '(tClass, tName) := loadTaskClass (taskFactory self) (taskName obj) in
      let '(h, taskDef) := copy_copy h obj in
      let h := alter (set_taskClass tClass) taskDef h in
      let h := alter (set_taskName tName) taskDef h in
      mret (h, taskDef)
  | Some _ => mret (h, taskDef)
  end.

(** [[self._loadTaskClass(taskDef) for taskDef in pipeline]] *)
Fixpoint loadTaskClasses (self : GraphBuilder) (h : Store) (pipeline : list Loc)
  : Run (Store * list Loc) :=
  match pipeline with
  | [] => mret (h, [])
  | taskDef :: rest =>
      '(h, l) ← _loadTaskClass self h taskDef;
      '(h, ls) ← loadTaskClasses self h rest;
      mret (h, l :: ls)
  end.

(** The body of the loop "collect inputs/outputs from each task". *)
Definition taskIo (taskClass : TaskClass) (cfg : Config) (attr : IoKind) : list DatasetType :=
  let ioObject := default [] (getDatasetTypes taskClass attr cfg) in
  descr_datasetType <$> dict_values ioObject.

Definition collectTaskDatasets (taskDef : TaskDef) : Exc _TaskDatasetTypes :=
  match taskClass taskDef with
  | None => inl AttributeError
  | Some taskClass =>
      let io := taskIo taskClass (config taskDef) in
      mret (mkTaskDatasetTypes taskDef (io Input) (io Output) (io InitInput) (io InitOutput))
  end.

(** ** Grouping the rows into quanta *)

(** The order of Python on the [(dimension, value)] tuples. *)
Definition item_le (a b : string * Z) : Prop :=
  match String.compare a.1 b.1 with
  | Lt => True
  | Eq => (a.2 ≤ b.2)%Z
  | Gt => False
  end.

Global Instance item_le_dec : RelDecision item_le.
Proof. intros a b. unfold item_le. destruct (String.compare a.1 b.1); apply _. Defined.

(** A tuple of [(dimension, value)] pairs: grouping keys and
    deduplication keys. *)
Abbreviation Key := (list (string * Z)).

(** [tuple(sorted(dataRef.dataId.items()))] *)
Definition _dataRefKey (dataRef : DatasetRef) : Key :=
  merge_sort item_le (map_to_list (dataId dataRef)).

(** The dicts of the row loop: deduplication key to reference, dataset type
    to those, and grouping key to those. *)
Abbreviation DataRefs := (pydict Key DatasetRef).
Abbreviation QuantumRefs := (pydict DatasetType (pydict Key DatasetRef)).
Abbreviation TaskQuanta := (pydict Key (pydict DatasetType (pydict Key DatasetRef))).

(** [tuple((col, row.dataId[col]) for col in qlinks)] *)
Definition quantumKey (qlinks : list string) (row : DimensionRow) : Exc Key :=
  mapM (λ col, v ← subscript (row_dataId row !! col); mret (col, v)) qlinks.

(** The loop over the dataset types of one row. [dataRefs] is the dict held
    by [qrefs] at [dsType]: the assignment to it is seen through [qrefs],
    which is what the [dict_set] at the position of [dsType] writes out. *)
Fixpoint addDataRefs (row : DimensionRow) (dsTypes : list DatasetType)
    (qrefs : QuantumRefs) : Exc QuantumRefs :=
  match dsTypes with
  | [] => mret qrefs
  | dsType :: rest =>
      let '(qrefs, dataRefs) := dict_setdefault dsType [] qrefs in
      dataRef ← subscript (datasetRefs row !! dsType);
      let dataRefs := dict_set (_dataRefKey dataRef) dataRef dataRefs in
      addDataRefs row rest (dict_set dsType dataRefs qrefs)
  end.

(** The body of the loop [for row in dimensionVerse]; [qinputs] and
    [qoutputs] are held by the two outer dicts at [qkey]. *)
Definition addRow (qlinks : list string) (taskDss : _TaskDatasetTypes)
    (st : TaskQuanta * TaskQuanta) (row : DimensionRow)
  : Exc (TaskQuanta * TaskQuanta) :=
  let '(taskQuantaInputs, taskQuantaOutputs) := st in
  qkey ← quantumKey qlinks row;
  let '(taskQuantaInputs, qinputs) := dict_setdefault qkey [] taskQuantaInputs in
  qinputs ← addDataRefs row (inputs taskDss) qinputs;
  let taskQuantaInputs := dict_set qkey qinputs taskQuantaInputs in
  let '(taskQuantaOutputs, qoutputs) := dict_setdefault qkey [] taskQuantaOutputs in
  qoutputs ← addDataRefs row (outputs taskDss) qoutputs;
  let taskQuantaOutputs := dict_set qkey qoutputs taskQuantaOutputs in
  mret (taskQuantaInputs, taskQuantaOutputs).

Fixpoint addRows (qlinks : list string) (taskDss : _TaskDatasetTypes)
    (st : TaskQuanta * TaskQuanta) (dimensionVerse : list DimensionRow)
  : Exc (TaskQuanta * TaskQuanta) :=
  match dimensionVerse with
  | [] => mret st
  | row :: rest => st ← addRow qlinks taskDss st row; addRows qlinks taskDss st rest
  end.

(** [chain.from_iterable(dataRefs.values() for dataRefs in qrefs.values())] *)
Definition chainValues (qrefs : QuantumRefs) : list DatasetRef :=
  concat (dict_values <$> dict_values qrefs).

(** [ref.id is not None] *)
Definition exists_ (ref : DatasetRef) : bool :=
  match ref_id ref with Some _ => true | None => false end.

(** The body of the loop [for qkey in taskQuantaInputs], from the existence
    check on; [None] is its [continue]. *)
Definition makeQuantum (skipExisting : bool) (taskName : string)
    (qinputs qoutputs : QuantumRefs) : Exc (option Quantum) :=
  let quantum := mkQuantum [] [] in
  let outputs := chainValues qoutputs in
  if skipExisting && forallb exists_ outputs then mret None
  else if existsb exists_ outputs then inl (OutputExistsError taskName outputs)
  else
    let quantum := foldl addOutput quantum outputs in
    let quantum := foldl addPredictedInput quantum (chainValues qinputs) in
    mret (Some quantum).

Fixpoint makeQuanta (skipExisting : bool) (taskName : string)
    (taskQuantaOutputs : TaskQuanta) (items : TaskQuanta) (quanta : list Quantum)
  : Exc (list Quantum) :=
  match items with
  | [] => mret quanta
  | (qkey, qinputs) :: rest =>
      qoutputs ← subscript (dict_get qkey taskQuantaOutputs);
      quantum ← makeQuantum skipExisting taskName qinputs qoutputs;
      makeQuanta skipExisting taskName taskQuantaOutputs rest
        (match quantum with Some quantum => quanta ++ [quantum] | None => quanta end)
  end.

(** The loop over [config.quantum.dimensions] that collects [qlinks]. *)
Fixpoint quantumLinks (dims : gmap string (list string)) (dimensionNames : list string)
    (qlinks : list string) : Exc (list string) :=
  match dimensionNames with
  | [] => mret qlinks
  | dimensionName :: rest =>
      links ← subscript (dims !! dimensionName);
      quantumLinks dims rest (qlinks ++ links)
  end.

(** The body of the loop [for taskDss in taskDatasets]. *)
Definition makeTaskNodes (self : GraphBuilder) (dimensionVerse : list DimensionRow)
    (taskDss : _TaskDatasetTypes) : Exc QuantumGraphTaskNodes :=
  qlinks ← quantumLinks (registry_dimensions (registry self))
             (quantum_dimensions (config (taskDef taskDss))) [];
  '(taskQuantaInputs, taskQuantaOutputs) ← addRows qlinks taskDss ([], []) dimensionVerse;
  quanta ← makeQuanta (skipExisting self) (taskName (taskDef taskDss))
             taskQuantaOutputs taskQuantaInputs [];
  mret (mkNodes (taskDef taskDss) quanta).

(** ** Init-inputs *)

(** The inner loop with its [break]: [Some] for the first collection in
    which [find] succeeds, [None] for the [else] branch of the loop. *)
Fixpoint findInCollections (reg : Registry) (dsType : DatasetType)
    (collections : list string) : Run (option DatasetRef) :=
  match collections with
  | [] => mret None
  | collection :: rest =>
      _ ← emit (EvFind collection dsType);
      match find reg collection dsType with
      | Some result => mret (Some result)
      | None => findInCollections reg dsType rest
      end
  end.

Definition initInputMissing (dsType : DatasetType) : Exception :=
  GraphBuilderError
    ("Could not find initInput " +:+ name dsType +:+ " in any input collection").

Fixpoint findInitInputs (reg : Registry) (originInfo : DatasetOriginInfo)
    (dsTypes : list DatasetType) (found : list DatasetRef) : Run (list DatasetRef) :=
  match dsTypes with
  | [] => mret found
  | dsType :: rest =>
      result ← findInCollections reg dsType (getInputCollections originInfo (name dsType));
      match result with
      | Some result => findInitInputs reg originInfo rest (found ++ [result])
      | None => raise (initInputMissing dsType)
      end
  end.

(** The first two steps of [makeGraph]: the task classes are loaded and the
    dataset types of each task collected. The store is returned with the
    task list because the loaded [TaskDef]s live in it. *)
Definition collectPipeline (self : GraphBuilder) (h : Store) (pipeline : list Loc)
  : Run (Store * list _TaskDatasetTypes) :=
  '(h, taskList) ← loadTaskClasses self h pipeline;
  taskDatasets ← lift (mapM (λ l, taskDef ← deref h l; collectTaskDatasets taskDef) taskList);
  mret (h, taskDatasets).

(** ** The builder *)

Section Builder.
(** The expression parser [ParserYacc]: a tree, no tree ([None]), or a
    [ParserYaccError] with its diagnostic. *)
Context {Tree : Type}.
Variable Tree_str : Tree → string.
Variable ParserYacc_parse : string → string + option Tree.

Definition _parseUserQuery (userQuery : string) : Run (option Tree) :=
  _ ← emit (EvParse userQuery);
  match ParserYacc_parse userQuery with
  | inr tree => mret tree
  | inl exc => raise (UserExpressionError userQuery exc)
  end.

(** [userQuery or ""] *)
Definition or_empty (userQuery : option string) : string :=
  match userQuery with
  | Some (String c s) => String c s
  | _ => ""
  end.

Definition _makeGraph (self : GraphBuilder) (taskDatasets : list _TaskDatasetTypes)
    (inputs outputs initInputs initOutputs : gset DatasetType)
    (originInfo : DatasetOriginInfo) (userQuery : option string) : Run QuantumGraph :=
  parsedQuery ← _parseUserQuery (or_empty userQuery);
  let expr := Tree_str <$> parsedQuery in
  _ ← emit (EvSelectDimensions expr inputs outputs);
  let rows := selectDimensions (registry self) originInfo expr inputs outputs in
  let dimensionVerse := rows in
  qgraph_initInputs ← findInitInputs (registry self) originInfo (elements initInputs) [];
  let qgraph_initOutputs := (λ dsType, mkDatasetRef dsType ∅ None) <$> elements initOutputs in
  nodes ← lift (mapM (makeTaskNodes self dimensionVerse) taskDatasets);
  mret (mkGraph nodes inputs outputs qgraph_initInputs qgraph_initOutputs).

Definition makeGraph (self : GraphBuilder) (h : Store) (pipeline : list Loc)
    (originInfo : DatasetOriginInfo) (userQuery : option string)
  : Run (Store * QuantumGraph) :=
  '(h, taskDatasets) ← collectPipeline self h pipeline;
  '(inputs, outputs, initInputs, initOutputs) ← lift (_makeFullIODatasetTypes taskDatasets);
  qgraph ← _makeGraph self taskDatasets inputs outputs initInputs initOutputs
             originInfo userQuery;
  mret (h, qgraph).
End Builder.

(** * Specification vocabulary and sample data *)

(** ** The global reduction *)

Definition declared (taskDatasets : list _TaskDatasetTypes) (k : IoKind) : list DatasetType :=
  taskDatasets ≫= (λ taskDs, getattr taskDs k).
Definition unionNames (taskDatasets : list _TaskDatasetTypes) (k : IoKind) : gset string :=
  list_to_set (name <$> declared taskDatasets k).
Definition declarations (taskDs : _TaskDatasetTypes) : list DatasetType :=
  ioKinds ≫= getattr taskDs.
Definition allDeclarations (taskDatasets : list _TaskDatasetTypes) : list DatasetType :=
  taskDatasets ≫= declarations.
Definition named (n : string) (l : list DatasetType) : list DatasetType :=
  filter (λ d, name d = n) l.

Definition assign (tbl : gmap string DatasetType) (d : DatasetType) := <[name d := d]> tbl.

Definition firstOccurrenceWins (taskDatasets : list _TaskDatasetTypes) : Prop :=
  ∀ gInputs gOutputs gInitInputs gInitOutputs d,
    _makeFullIODatasetTypes taskDatasets = inr (gInputs, gOutputs, gInitInputs, gInitOutputs) →
    d ∈ gInputs ∪ gOutputs ∪ gInitInputs ∪ gInitOutputs →
    head (named (name d) (allDeclarations taskDatasets)) = Some d.

Definition calexp_visit := mkDatasetType "calexp" ["visit"].
Definition calexp_visit_detector := mkDatasetType "calexp" ["visit"; "detector"].
Definition plainTaskDef (n : string) : TaskDef := mkTaskDef n (mkConfig []) None n.
Definition sameNameTasks : list _TaskDatasetTypes :=
  [ mkTaskDatasetTypes (plainTaskDef "T1") [] [calexp_visit] [] [];
    mkTaskDatasetTypes (plainTaskDef "T2") [calexp_visit_detector] [] [] [] ].

(** ** Task classes *)

(** The updated copy that [_loadTaskClass] makes of an unresolved object. *)
Definition resolved (self : GraphBuilder) (obj : TaskDef) : TaskDef :=
  let '(tClass, tName) := loadTaskClass (taskFactory self) (taskName obj) in
  mkTaskDef tName (config obj) (Some tClass) (label obj).


(** ** Collaborator calls *)



(** [find] in the collections, in priority order: the first match. *)
Definition firstMatchIn (reg : Registry) (dsType : DatasetType) (collections : list string)
    (ref : DatasetRef) : Prop :=
  ∃ i collection,
    collections !! i = Some collection ∧ find reg collection dsType = Some ref ∧
    ∀ j c, j < i → collections !! j = Some c → find reg c dsType = None.

Definition notFound (reg : Registry) (originInfo : DatasetOriginInfo) (dsType : DatasetType) : Prop :=
  ∀ collection, collection ∈ getInputCollections originInfo (name dsType) →
                find reg collection dsType = None.

Definition isFind (ev : Event) : Prop := ∃ c d, ev = EvFind c d.

(** ** Grouping the rows *)

(** One of the two dicts of the row loop, followed on its own. *)
Definition addRow1 (qlinks : list string) (dsTypes : list DatasetType)
    (tq : TaskQuanta) (row : DimensionRow) : Exc TaskQuanta :=
  qkey ← quantumKey qlinks row;
  let '(tq, qrefs) := dict_setdefault qkey [] tq in
  qrefs ← addDataRefs row dsTypes qrefs;
  mret (dict_set qkey qrefs tq).

Definition addRows1 (qlinks : list string) (dsTypes : list DatasetType)
    (tq : TaskQuanta) (rows : list DimensionRow) : Exc TaskQuanta :=
  foldl (λ acc row, tq ← acc; addRow1 qlinks dsTypes tq row) (inr tq) rows.

(** What one assignment [dataRefs[_dataRefKey(dataRef)] = dataRef] does to
    the dict of a grouping key. *)
Definition putRef (dsType : DatasetType) (dataRef : DatasetRef) (qrefs : QuantumRefs)
  : QuantumRefs :=
  dict_set dsType
    (dict_set (_dataRefKey dataRef) dataRef (default [] (dict_get dsType qrefs))) qrefs.

(** The reference stored for a dataset type under a deduplication key, and
    the same below a grouping key. *)
Definition get2 (qrefs : QuantumRefs) (dsType : DatasetType) (x : Key) : option DatasetRef :=
  dataRefs ← dict_get dsType qrefs; dict_get x dataRefs.

Definition get3 (tq : TaskQuanta) (qkey : Key) (dsType : DatasetType) (x : Key)
  : option DatasetRef :=
  qrefs ← dict_get qkey tq; get2 qrefs dsType x.

(** No key occurs twice, at each of the levels. *)
Definition wf2 (qrefs : QuantumRefs) : Prop :=
  NoDup (dict_keys qrefs) ∧ Forall (λ p, NoDup (dict_keys p.2)) qrefs.

Definition wf3 (tq : TaskQuanta) : Prop :=
  NoDup (dict_keys tq) ∧ Forall (λ p, wf2 p.2) tq.

(** A row that the loop can process: it has the link dimensions and a
    reference for each dataset type of the task. *)
Definition rowOk (qlinks : list string) (ds : list DatasetType) (row : DimensionRow) : Prop :=
  (∃ k, quantumKey qlinks row = inr k) ∧ ∀ d, d ∈ ds → is_Some (datasetRefs row !! d).

(** ** The existence policy *)

(** A grouping key of a task over the buffered rows, with the two dicts the
    row loop has accumulated for it. *)
Definition groupOf (self : GraphBuilder) (rows : list DimensionRow)
    (t : _TaskDatasetTypes) (qkey : Key) (qinputs qoutputs : QuantumRefs) : Prop :=
  ∃ qlinks tqi tqo,
    quantumLinks (registry_dimensions (registry self))
                 (quantum_dimensions (config (taskDef t))) [] = inr qlinks ∧
    addRows qlinks t ([], []) rows = inr (tqi, tqo) ∧
    dict_get qkey tqi = Some qinputs ∧ dict_get qkey tqo = Some qoutputs.

(** ** Deduplication *)

(** The references a grouping key holds for one dataset type. *)
Definition refsOf (qrefs : QuantumRefs) (dsType : DatasetType) : list DatasetRef :=
  default [] (dict_values <$> dict_get dsType qrefs).

(** The references of the rows carry the dataset type they are filed under. *)
Definition refsTyped (rows : list DimensionRow) : Prop :=
  ∀ row d r, row ∈ rows → datasetRefs row !! d = Some r → datasetType r = d.

(** The instance a reference points to. *)
Definition sameInstance (d : DatasetType) (coord : DataId) (r : DatasetRef) : Prop :=
  datasetType r = d ∧ dataId r = coord.

(** ** Row order *)










(** ** Sample data *)

(** A parser for the samples: no tree for the empty string, a diagnostic for
    one malformed expression, the string itself otherwise. *)
Definition sampleParse (s : string) : string + option string :=
  if decide (s = "") then inr None
  else if decide (s = "visit = )") then inl "syntax error"
  else inr (Some s).

Definition sampleClass (ins outs initIns initOuts : list DatasetType) : TaskClass :=
  mkTaskClass (λ kind _,
    let descrs l := Some ((λ d, (name d, mkDescr d)) <$> l) in
    match kind with
    | Input => descrs ins
    | Output => descrs outs
    | InitInput => descrs initIns
    | InitOutput => descrs initOuts
    end).

Definition sampleFactory (cls : TaskClass) : TaskFactory :=
  mkTaskFactory (λ n, (cls, "pkg." +:+ n)).

Definition sampleDimensions : gmap string (list string) :=
  {[ "visit" := ["visit"]; "detector" := ["detector"] ]}.

Definition raw : DatasetType := mkDatasetType "raw" ["visit"; "detector"].
Definition visitSummary : DatasetType := mkDatasetType "visitSummary" ["visit"].
Definition schema : DatasetType := mkDatasetType "schema" [].

(** A row at [(visit, detector)]: its [raw] exists, its [visitSummary] has
    the identity [summaryId]. *)
Definition sampleRow (visit detector : Z) (summaryId : option Z) : DimensionRow :=
  mkRow {[ "visit" := visit; "detector" := detector ]}
        {[ raw := mkDatasetRef raw {[ "visit" := visit; "detector" := detector ]}
                    (Some detector);
           visitSummary := mkDatasetRef visitSummary {[ "visit" := visit ]} summaryId ]}.

Definition sampleRegistry (rows : list DimensionRow) : Registry :=
  mkRegistry sampleDimensions (λ _ _ _ _, rows) (λ _ _, None).

Definition sampleOrigin : DatasetOriginInfo := mkOrigin (λ _, ["c1"; "c2"]).

(** One unresolved task, keyed on [visit]. *)
Definition sampleStore : Store :=
  {[ 1%positive := mkTaskDef "T" (mkConfig ["visit"]) None "t" ]}.

Definition sampleBuilder (cls : TaskClass) (rows : list DimensionRow) (skip : bool)
  : GraphBuilder :=
  mkGraphBuilder (sampleFactory cls) (sampleRegistry rows) skip.

(** The task of the samples reads [raw] and writes [visitSummary]. *)
Definition summaryClass : TaskClass := sampleClass [raw] [visitSummary] [] [].

Definition sampleRun (cls : TaskClass) (rows : list DimensionRow) (skip : bool)
    (userQuery : option string) : Run (Store * QuantumGraph) :=
  makeGraph id sampleParse (sampleBuilder cls rows skip) sampleStore [1%positive]
            sampleOrigin userQuery.

Definition twoDetectors : list DimensionRow := [sampleRow 1 10 None; sampleRow 1 11 None].

(** The task of the samples once its class is loaded, and its dataset types
    as [makeGraph] collects them. *)
Definition sampleTaskDef (cls : TaskClass) : TaskDef :=
  mkTaskDef "pkg.T" (mkConfig ["visit"]) (Some cls) "t".

Definition sampleStore' (cls : TaskClass) : Store :=
  <[ 2%positive := sampleTaskDef cls ]> sampleStore.

Definition sampleTaskDatasets (ins outs initIns initOuts : list DatasetType)
  : _TaskDatasetTypes :=
  mkTaskDatasetTypes (sampleTaskDef (sampleClass ins outs initIns initOuts))
                     ins outs initIns initOuts.

Definition summaryTask : _TaskDatasetTypes := sampleTaskDatasets [raw] [visitSummary] [] [].

Definition rawRef (visit detector : Z) : DatasetRef :=
  mkDatasetRef raw {[ "visit" := visit; "detector" := detector ]} (Some detector).

Definition summaryRef (visit : Z) (summaryId : option Z) : DatasetRef :=
  mkDatasetRef visitSummary {[ "visit" := visit ]} summaryId.

(** The dicts of the grouping key [visit = 1] over [twoDetectors]. *)
Definition visit1 : Key := [("visit", 1%Z)].

Definition visit1Inputs : QuantumRefs :=
  [(raw, [(_dataRefKey (rawRef 1 10), rawRef 1 10); (_dataRefKey (rawRef 1 11), rawRef 1 11)])].

Definition visit1Outputs : QuantumRefs :=
  [(visitSummary, [(_dataRefKey (summaryRef 1 None), summaryRef 1 None)])].

Definition visit1Quantum : Quantum :=
  mkQuantum [rawRef 1 10; rawRef 1 11] [summaryRef 1 None].

Definition summaryGraph : QuantumGraph :=
  mkGraph [mkNodes (sampleTaskDef summaryClass) [visit1Quantum]]
          {[ raw ]} {[ visitSummary ]} [] [].

(** ** Sample runs *)

(** The task of the init-input samples also needs a [schema] to start. *)
Definition schemaClass : TaskClass := sampleClass [raw] [visitSummary] [schema] [].
Definition schemaTask : _TaskDatasetTypes := sampleTaskDatasets [raw] [visitSummary] [schema] [].

(** The claim of an init-input error that precedes the catalog query. *)
Definition raisedBeforeRows (run : Run (Store * QuantumGraph)) (dsType : DatasetType) : Prop :=
  result run = inl (initInputMissing dsType) ∧
  ∀ expr gInputs gOutputs, EvSelectDimensions expr gInputs gOutputs ∉ trace run.

(** A task that only reads. *)
Definition readerClass : TaskClass := sampleClass [raw] [] [] [].
Definition readerTask : _TaskDatasetTypes := sampleTaskDatasets [raw] [] [] [].



(** * Properties *)

(** ** The global reduction *)

Lemma Exc_bind_inr {A B} (m : Exc A) (f : A → Exc B) b :
  m ≫= f = inr b ↔ ∃ a, m = inr a ∧ f a = inr b.
Proof. destruct m; simpl; split; [done|intros (?&?&?); done|eauto|]. intros (?&[= ->]&?). done. Qed.

Lemma fold_addDatasetType_ioSet k st l k' :
  ioSet (foldl (addDatasetType k) st l) k'
  = if decide (k' = k) then list_to_set (name <$> l) ∪ ioSet st k' else ioSet st k'.
Proof.
  revert st. induction l as [|d l IH]; intros st; simpl.
  - case_decide; set_solver.
  - rewrite IH. simpl. repeat case_decide; try done. set_solver.
Qed.

Lemma fold_addDatasetType_all k st l :
  allDatasetTypes (foldl (addDatasetType k) st l) = foldl assign (allDatasetTypes st) l.
Proof. revert st. induction l as [|d l IH]; intros st; simpl; [done|]. by rewrite IH. Qed.

Lemma addTask_ioSet st t k :
  ioSet (addTask st t) k = list_to_set (name <$> getattr t k) ∪ ioSet st k.
Proof.
  unfold addTask, ioKinds. simpl. rewrite !fold_addDatasetType_ioSet.
  destruct k; repeat case_decide; done.
Qed.

Lemma addTask_all st t :
  allDatasetTypes (addTask st t) = foldl assign (allDatasetTypes st) (declarations t).
Proof.
  unfold addTask, declarations, ioKinds. simpl.
  rewrite !fold_addDatasetType_all, app_nil_r, !foldl_app. done.
Qed.

Lemma fold_addTask_ioSet st tds k :
  ioSet (foldl addTask st tds) k = unionNames tds k ∪ ioSet st k.
Proof.
  revert st. induction tds as [|t tds IH]; intros st; simpl.
  - unfold unionNames, declared. simpl. set_solver.
  - rewrite IH, addTask_ioSet. unfold unionNames, declared. simpl.
    rewrite fmap_app, list_to_set_app_L. set_solver.
Qed.

Lemma fold_addTask_all st tds :
  allDatasetTypes (foldl addTask st tds) = foldl assign (allDatasetTypes st) (allDeclarations tds).
Proof.
  revert st. induction tds as [|t tds IH]; intros st; simpl; [done|].
  rewrite IH, addTask_all. unfold allDeclarations. simpl. by rewrite foldl_app.
Qed.

Lemma fold_assign_lookup tbl l n :
  foldl assign tbl l !! n = match last (named n l) with Some d => Some d | None => tbl !! n end.
Proof.
  revert tbl. induction l as [|d l IH]; intros tbl; simpl; [done|].
  rewrite IH. unfold named. rewrite filter_cons. unfold assign at 1.
  case_decide as Hn.
  - rewrite last_cons. destruct (last _); [done|]. subst n. by rewrite lookup_insert_eq.
  - destruct (last _); [done|]. by rewrite lookup_insert_ne.
Qed.

Lemma last_named_Some n l d : last (named n l) = Some d → name d = n ∧ d ∈ l.
Proof.
  intros H. apply last_Some in H as [l' H].
  assert (d ∈ named n l) as Hd by (rewrite H; set_solver).
  unfold named in Hd. apply list_elem_of_filter in Hd. done.
Qed.

Lemma last_named_is_Some n l : n ∈ name <$> l → is_Some (last (named n l)).
Proof.
  intros (d & -> & Hd)%list_elem_of_fmap.
  assert (d ∈ named (name d) l) as Hin by (by apply list_elem_of_filter).
  destruct (named (name d) l) as [|x xs] using rev_ind; [by apply elem_of_nil in Hin|].
  rewrite last_snoc. eauto.
Qed.

Lemma mapM_subscript (tbl : gmap string DatasetType) l :
  (∀ n, n ∈ l → is_Some (tbl !! n)) →
  ∃ ds, mapM (λ n, subscript (tbl !! n)) l = inr ds ∧ Forall2 (λ n d, tbl !! n = Some d) l ds.
Proof.
  induction l as [|n l IH]; intros Hl; simpl.
  - exists []. split; [done|constructor].
  - destruct (Hl n) as [d Hd]; [set_solver|].
    destruct IH as (ds & Hds & HF); [set_solver|].
    exists (d :: ds). rewrite Hd. simpl. rewrite Hds. simpl. split; [done|by constructor].
Qed.

Lemma canonical_inr tbl names :
  names ⊆ dom tbl →
  ∃ s, canonical tbl names = inr s ∧ ∀ d, d ∈ s ↔ ∃ n, n ∈ names ∧ tbl !! n = Some d.
Proof.
  intros Hsub. destruct (mapM_subscript tbl (elements names)) as (ds & Hds & HF).
  { intros n Hn%elem_of_elements. apply elem_of_dom. set_solver. }
  exists (list_to_set ds). unfold canonical. rewrite Hds. split; [done|].
  intros d. rewrite elem_of_list_to_set. split.
  - intros Hd. apply list_elem_of_lookup in Hd as [i Hi].
    destruct (Forall2_lookup_r _ _ _ _ _ HF Hi) as (n & Hn & Hnd).
    exists n. split; [|done]. apply elem_of_elements. by eapply list_elem_of_lookup_2.
  - intros (n & Hn%elem_of_elements & Hnd). apply list_elem_of_lookup in Hn as [i Hi].
    destruct (Forall2_lookup_l _ _ _ _ _ HF Hi) as (d' & Hd' & Hnd').
    simplify_eq. by eapply list_elem_of_lookup_2.
Qed.

Lemma declared_allDeclarations tds k d : d ∈ declared tds k → d ∈ allDeclarations tds.
Proof.
  unfold declared, allDeclarations. rewrite !list_elem_of_bind.
  intros (t & Hd & Ht). exists t. split; [|done].
  unfold declarations. apply list_elem_of_bind. exists k. split; [done|].
  unfold ioKinds. destruct k; set_solver.
Qed.

Lemma collectIo_lookup tds n :
  allDatasetTypes (collectIo tds) !! n = last (named n (allDeclarations tds)).
Proof.
  unfold collectIo. rewrite fold_addTask_all, fold_assign_lookup. simpl.
  rewrite lookup_empty. by destruct (last _).
Qed.

Lemma collectIo_ioSet tds k : ioSet (collectIo tds) k = unionNames tds k.
Proof. unfold collectIo. rewrite fold_addTask_ioSet. simpl. set_solver. Qed.

Lemma collectIo_dom tds k : unionNames tds k ⊆ dom (allDatasetTypes (collectIo tds)).
Proof.
  intros n Hn. apply elem_of_dom. rewrite collectIo_lookup.
  apply last_named_is_Some. unfold unionNames in Hn.
  apply elem_of_list_to_set, list_elem_of_fmap in Hn as (d & -> & Hd).
  apply list_elem_of_fmap. eauto using declared_allDeclarations.
Qed.

(** What [canonical] returns on a set of collected names. *)
Lemma canonical_collectIo tds (names : gset string) k :
  names ⊆ unionNames tds k →
  ∃ s, canonical (allDatasetTypes (collectIo tds)) names = inr s ∧
       set_map name s = names ∧
       ∀ d, d ∈ s → last (named (name d) (allDeclarations tds)) = Some d.
Proof.
  intros Hsub.
  destruct (canonical_inr (allDatasetTypes (collectIo tds)) names) as (s & Hs & Hin).
  { etrans; [done|apply collectIo_dom]. }
  exists s. split; [done|]. split.
  - apply set_eq. intros n. rewrite elem_of_map. split.
    + intros (d & -> & (n' & Hn & Hd)%Hin). rewrite collectIo_lookup in Hd.
      by apply last_named_Some in Hd as [-> _].
    + intros Hn. pose proof (collectIo_dom tds k n (Hsub _ Hn)) as [d Hd]%elem_of_dom.
      exists d. split; [|apply Hin; eauto].
      rewrite collectIo_lookup in Hd. by apply last_named_Some in Hd as [-> _].
  - intros d (n & Hn & Hd)%Hin. rewrite collectIo_lookup in Hd.
    by destruct (last_named_Some _ _ _ Hd) as [-> _].
Qed.

Lemma makeFullIO_spec tds :
  ∃ gi go gii gio,
    _makeFullIODatasetTypes tds = inr (gi, go, gii, gio) ∧
    (set_map name gi = unionNames tds Input ∖ unionNames tds Output ∧
     set_map name go = unionNames tds Output ∧
     set_map name gii = unionNames tds InitInput ∖ unionNames tds InitOutput ∧
     set_map name gio = unionNames tds InitOutput) ∧
    ∀ d, d ∈ gi ∪ go ∪ gii ∪ gio → last (named (name d) (allDeclarations tds)) = Some d.
Proof.
  unfold _makeFullIODatasetTypes. rewrite !collectIo_ioSet.
  destruct (canonical_collectIo tds (unionNames tds Input ∖ unionNames tds Output) Input)
    as (gi & -> & Hgi & Li); [set_solver|].
  destruct (canonical_collectIo tds (unionNames tds Output) Output)
    as (go & -> & Hgo & Lo); [set_solver|].
  destruct (canonical_collectIo tds (unionNames tds InitInput ∖ unionNames tds InitOutput) InitInput)
    as (gii & -> & Hgii & Lii); [set_solver|].
  destruct (canonical_collectIo tds (unionNames tds InitOutput) InitOutput)
    as (gio & -> & Hgio & Lio); [set_solver|].
  exists gi, go, gii, gio. simpl. split; [done|]. split; [done|].
  intros d. rewrite !elem_of_union. naive_solver.
Qed.

(** C3: [_makeFullIODatasetTypes] always returns; by name, the global inputs
    are the union of the tasks' inputs minus the union of their outputs, the
    global init-inputs the union of the init-inputs minus the union of the
    init-outputs, the global outputs and init-outputs the plain unions; the
    global inputs and outputs are disjoint, and so are the global init-inputs
    and init-outputs. *)
Theorem global_reduction (taskDatasets : list _TaskDatasetTypes) :
  ∃ gInputs gOutputs gInitInputs gInitOutputs,
    _makeFullIODatasetTypes taskDatasets = inr (gInputs, gOutputs, gInitInputs, gInitOutputs) ∧
    set_map name gInputs = unionNames taskDatasets Input ∖ unionNames taskDatasets Output ∧
    set_map name gOutputs = unionNames taskDatasets Output ∧
    set_map name gInitInputs
      = unionNames taskDatasets InitInput ∖ unionNames taskDatasets InitOutput ∧
    set_map name gInitOutputs = unionNames taskDatasets InitOutput ∧
    gInputs ∩ gOutputs = ∅ ∧ gInitInputs ∩ gInitOutputs = ∅.
Proof.
  destruct (makeFullIO_spec taskDatasets)
    as (gi & go & gii & gio & Heq & (Hi & Ho & Hii & Hio) & _).
  exists gi, go, gii, gio. repeat split; try done.
  - apply set_eq. intros d. rewrite elem_of_intersection, elem_of_empty. split; [|done].
    intros [H1 H2].
    assert (name d ∈ set_map (D:=gset string) name gi) as Hn1 by (apply elem_of_map; eauto).
    assert (name d ∈ set_map (D:=gset string) name go) as Hn2 by (apply elem_of_map; eauto).
    rewrite Hi in Hn1. rewrite Ho in Hn2. set_solver.
  - apply set_eq. intros d. rewrite elem_of_intersection, elem_of_empty. split; [|done].
    intros [H1 H2].
    assert (name d ∈ set_map (D:=gset string) name gii) as Hn1 by (apply elem_of_map; eauto).
    assert (name d ∈ set_map (D:=gset string) name gio) as Hn2 by (apply elem_of_map; eauto).
    rewrite Hii in Hn1. rewrite Hio in Hn2. set_solver.
Qed.

Lemma sameNameTasks_reduction :
  _makeFullIODatasetTypes sameNameTasks = inr (∅, {[ calexp_visit_detector ]}, ∅, ∅).
Proof. reflexivity. Qed.

Lemma first_occurrence_does_not_win : ¬ firstOccurrenceWins sameNameTasks.
Proof.
  intros H. specialize (H _ _ _ _ calexp_visit_detector sameNameTasks_reduction).
  discriminate H. set_solver.
Qed.

(** C4, amended: the table [allDatasetTypes] holds, for a name, the last
    dataset type declared with it (tasks in pipeline order; within a task
    inputs, outputs, init-inputs, init-outputs), and every dataset type of
    the four returned sets is that last declaration of its name. *)
Theorem last_occurrence_wins (taskDatasets : list _TaskDatasetTypes)
    (gInputs gOutputs gInitInputs gInitOutputs : gset DatasetType) (d : DatasetType) :
  _makeFullIODatasetTypes taskDatasets = inr (gInputs, gOutputs, gInitInputs, gInitOutputs) →
  d ∈ gInputs ∪ gOutputs ∪ gInitInputs ∪ gInitOutputs →
  allDatasetTypes (collectIo taskDatasets) !! name d = Some d ∧
  last (named (name d) (allDeclarations taskDatasets)) = Some d.
Proof.
  intros Heq Hd. destruct (makeFullIO_spec taskDatasets)
    as (gi & go & gii & gio & Heq' & _ & Hlast).
  rewrite Heq in Heq'. simplify_eq. rewrite collectIo_lookup. split; by apply Hlast.
Qed.

Lemma last_occurrence_wins_witness :
  last (named "calexp" (allDeclarations sameNameTasks)) = Some calexp_visit_detector.
Proof.
  apply (last_occurrence_wins sameNameTasks ∅ {[ calexp_visit_detector ]} ∅ ∅
           calexp_visit_detector).
  - reflexivity.
  - apply elem_of_union_l, elem_of_union_l, elem_of_union_r, elem_of_singleton. reflexivity.
Defined.


(** ** Task classes *)

Lemma Run_bind_result {A B} (m : Run A) (f : A → Run B) :
  result (m ≫= f) = match result m with inl e => inl e | inr x => result (f x) end.
Proof. unfold mbind, Run_bind. by destruct (result m). Qed.

Lemma Run_bind_trace {A B} (m : Run A) (f : A → Run B) :
  trace (m ≫= f) = match result m with inl e => trace m | inr x => trace m ++ trace (f x) end.
Proof. unfold mbind, Run_bind. by destruct (result m). Qed.

Lemma loadTaskClass_resolved self h l obj tc :
  h !! l = Some obj → taskClass obj = Some tc →
  _loadTaskClass self h l = MkRun [] (inr (h, l)).
Proof.
  intros Hl Htc. unfold _loadTaskClass, deref. rewrite Hl. simpl.
  unfold mbind, Run_bind. simpl. by rewrite Htc.
Qed.

Lemma loadTaskClass_unresolved self h l obj :
  h !! l = Some obj → taskClass obj = None →
  _loadTaskClass self h l
  = MkRun [EvLoadTaskClass (taskName obj)]
          (inr (<[fresh (dom h) := resolved self obj]> h, fresh (dom h))).
Proof.
  intros Hl Htc. unfold _loadTaskClass, deref, resolved. rewrite Hl. simpl.
  unfold mbind, Run_bind. simpl. rewrite Htc. simpl.
  destruct (loadTaskClass _ _) as [tClass tName]. simpl.
  rewrite !alter_insert_eq. done.
Qed.

Lemma taskClass_resolved self obj : is_Some (taskClass (resolved self obj)).
Proof. unfold resolved. destruct (loadTaskClass _ _). simpl. eauto. Qed.



(** C8: [_loadTaskClass] returns, leaves every object of the caller's store
    as it was, passes a resolved [TaskDef] through (same reference, same
    store, no call to the factory), returns for an unresolved one a new
    object with the class and the fully-qualified name set and the other
    attributes copied, and is idempotent: applied to its own result it
    changes nothing. *)
Theorem loadTaskClass_idempotent_frame (self : GraphBuilder) (h : Store) (taskDef : Loc)
    (obj : TaskDef) :
  h !! taskDef = Some obj →
  ∃ h' taskDef',
    result (_loadTaskClass self h taskDef) = inr (h', taskDef') ∧
    (∀ l o, h !! l = Some o → h' !! l = Some o) ∧
    (is_Some (taskClass obj) →
       h' = h ∧ taskDef' = taskDef ∧ trace (_loadTaskClass self h taskDef) = []) ∧
    (taskClass obj = None →
       h !! taskDef' = None ∧
       h' !! taskDef' = Some
         (mkTaskDef (loadTaskClass (taskFactory self) (taskName obj)).2 (config obj)
                    (Some (loadTaskClass (taskFactory self) (taskName obj)).1) (label obj))) ∧
    _loadTaskClass self h' taskDef' = MkRun [] (inr (h', taskDef')).
Proof.
  intros Hl. destruct (taskClass obj) as [tc|] eqn:Htc.
  - rewrite (loadTaskClass_resolved _ _ _ _ _ Hl Htc). exists h, taskDef. simpl.
    repeat split; try done. by eapply loadTaskClass_resolved.
  - rewrite (loadTaskClass_unresolved _ _ _ _ Hl Htc).
    assert (h !! fresh (dom h) = None) as Hfresh by apply not_elem_of_dom, is_fresh.
    eexists _, _. simpl. split; [done|]. split; [|split; [|split]].
    + intros l o Ho. rewrite lookup_insert_ne; [done|]. intros <-. congruence.
    + by intros [? ?].
    + intros _. split; [done|]. rewrite lookup_insert_eq. unfold resolved.
      by destruct (loadTaskClass _ _).
    + destruct (taskClass_resolved self obj) as [tc Hc].
      eapply loadTaskClass_resolved; [apply lookup_insert_eq|done].
Qed.

(** ** Collaborator calls *)



Lemma mapM_cons `{MBind M, MRet M} {A B} (f : A → M B) x l :
  mapM f (x :: l) = y ← f x; k ← mapM f l; mret (y :: k).
Proof. done. Qed.



Lemma findInCollections_trace reg d cs : Forall isFind (trace (findInCollections reg d cs)).
Proof.
  induction cs as [|c cs IH]; cbn [findInCollections]; [constructor|].
  rewrite Run_bind_trace. simpl. constructor; [by eexists _, _|].
  by destruct (find reg c d).
Qed.

Lemma findInCollections_result reg d cs :
  match result (findInCollections reg d cs) with
  | inr (Some r) => firstMatchIn reg d cs r
  | inr None => ∀ c, c ∈ cs → find reg c d = None
  | inl _ => False
  end.
Proof.
  induction cs as [|c cs IH]; cbn [findInCollections].
  - intros c Hc. by apply elem_of_nil in Hc.
  - rewrite Run_bind_result. simpl. destruct (find reg c d) as [r|] eqn:Hf; simpl.
    + exists 0, c. split; [done|]. split; [done|]. intros j c' Hj. lia.
    + destruct (result (findInCollections reg d cs)) as [e|[r|]]; [done| |].
      * destruct IH as (i & c' & Hi & Hr & Hbefore). exists (S i), c'.
        split; [done|]. split; [done|]. intros [|j] c'' Hj Hc''; simpl in Hc''.
        -- by simplify_eq.
        -- eapply Hbefore; [|done]. lia.
      * intros c' [->|Hc']%elem_of_cons; auto.
Qed.

Lemma firstMatchIn_found reg d cs r :
  firstMatchIn reg d cs r → ∃ c, c ∈ cs ∧ find reg c d = Some r.
Proof. intros (i & c & Hi & Hr & _). exists c. split; [|done]. by eapply list_elem_of_lookup_2. Qed.

Lemma findInitInputs_trace reg originInfo ds : ∀ found,
  Forall isFind (trace (findInitInputs reg originInfo ds found)).
Proof.
  induction ds as [|d ds IH]; intros found; cbn [findInitInputs]; [constructor|].
  rewrite Run_bind_trace.
  pose proof (findInCollections_trace reg d (getInputCollections originInfo (name d))) as Ht.
  destruct (result (findInCollections _ _ _)) as [e|[r|]]; [done| |].
  - apply Forall_app. split; [done|apply IH].
  - simpl. by rewrite app_nil_r.
Qed.

Lemma findInitInputs_result reg originInfo ds : ∀ found,
  match result (findInitInputs reg originInfo ds found) with
  | inl e => ∃ d, d ∈ ds ∧ notFound reg originInfo d ∧ e = initInputMissing d
  | inr l => ∃ l', l = found ++ l' ∧
      Forall2 (λ d r, firstMatchIn reg d (getInputCollections originInfo (name d)) r) ds l'
  end.
Proof.
  induction ds as [|d ds IH]; intros found; cbn [findInitInputs].
  - exists []. by rewrite app_nil_r.
  - rewrite Run_bind_result.
    pose proof (findInCollections_result reg d (getInputCollections originInfo (name d))) as Hd.
    destruct (result (findInCollections _ _ _)) as [e|[r|]]; [done| |].
    + specialize (IH (found ++ [r])).
      destruct (result (findInitInputs _ _ _ _)) as [e|l].
      * destruct IH as (d' & ? & ? & ?). exists d'. set_solver.
      * destruct IH as (l' & -> & HF). exists (r :: l'). rewrite <- app_assoc.
        split; [done|]. by constructor.
    + simpl. exists d. split; [set_solver|]. done.
Qed.

Lemma findInitInputs_missing reg originInfo ds found d :
  d ∈ ds → notFound reg originInfo d →
  ∃ d', d' ∈ ds ∧ notFound reg originInfo d' ∧
        result (findInitInputs reg originInfo ds found) = inl (initInputMissing d').
Proof.
  intros Hd Hnf. pose proof (findInitInputs_result reg originInfo ds found) as H.
  destruct (result (findInitInputs _ _ _ _)) as [e|l].
  - destruct H as (d' & ? & ? & ->). eauto.
  - destruct H as (l' & _ & HF). apply list_elem_of_lookup in Hd as [i Hi].
    destruct (Forall2_lookup_l _ _ _ _ _ HF Hi) as (r & _ & Hr).
    apply firstMatchIn_found in Hr as (c & Hc & Hr). rewrite (Hnf c Hc) in Hr. done.
Qed.

Section BuilderFacts.
Context {Tree : Type}.
Variable Tree_str : Tree → string.
Variable ParserYacc_parse : string → string + option Tree.

Abbreviation makeGraph' := (makeGraph Tree_str ParserYacc_parse).
Abbreviation _makeGraph' := (_makeGraph Tree_str ParserYacc_parse).

Lemma makeGraph_unfold self h pipeline originInfo userQuery h' tds gi go gii gio :
  result (collectPipeline self h pipeline) = inr (h', tds) →
  _makeFullIODatasetTypes tds = inr (gi, go, gii, gio) →
  trace (makeGraph' self h pipeline originInfo userQuery)
  = trace (collectPipeline self h pipeline)
    ++ trace (_makeGraph' self tds gi go gii gio originInfo userQuery) ∧
  result (makeGraph' self h pipeline originInfo userQuery)
  = match result (_makeGraph' self tds gi go gii gio originInfo userQuery) with
    | inl e => inl e
    | inr g => inr (h', g)
    end.
Proof.
  intros Hc Hio. unfold makeGraph.
  rewrite Run_bind_result, Run_bind_trace, Hc. simpl.
  rewrite Run_bind_result, Run_bind_trace. simpl. rewrite Hio. simpl.
  rewrite Run_bind_result, Run_bind_trace.
  destruct (result (_makeGraph _ _ _ _ _ _ _ _ _ _)); simpl; by rewrite ?app_nil_r.
Qed.

Lemma parseUserQuery_run q :
  _parseUserQuery ParserYacc_parse q
  = MkRun [EvParse q] (match ParserYacc_parse q with
                       | inr tree => inr tree
                       | inl exc => inl (UserExpressionError q exc)
                       end).
Proof. unfold _parseUserQuery. unfold mbind, Run_bind. simpl. by destruct (ParserYacc_parse q). Qed.

Lemma _makeGraph_parse_failure self tds gi go gii gio originInfo userQuery exc :
  ParserYacc_parse (or_empty userQuery) = inl exc →
  _makeGraph' self tds gi go gii gio originInfo userQuery
  = MkRun [EvParse (or_empty userQuery)]
          (inl (UserExpressionError (or_empty userQuery) exc)).
Proof.
  intros Hp. unfold _makeGraph. rewrite parseUserQuery_run, Hp. done.
Qed.

Lemma _makeGraph_parsed self tds gi go gii gio originInfo userQuery tree :
  ParserYacc_parse (or_empty userQuery) = inr tree →
  let expr := Tree_str <$> tree in
  let rows := selectDimensions (registry self) originInfo expr gi go in
  let init := findInitInputs (registry self) originInfo (elements gii) [] in
  trace (_makeGraph' self tds gi go gii gio originInfo userQuery)
  = EvParse (or_empty userQuery) :: EvSelectDimensions expr gi go :: trace init ∧
  result (_makeGraph' self tds gi go gii gio originInfo userQuery)
  = match result init with
    | inl e => inl e
    | inr found =>
        nodes ← mapM (makeTaskNodes self rows) tds;
        mret (mkGraph nodes gi go found
                ((λ dsType, mkDatasetRef dsType ∅ None) <$> elements gio))
    end.
Proof.
  intros Hp expr rows init. unfold _makeGraph. rewrite parseUserQuery_run, Hp.
  rewrite Run_bind_result, Run_bind_trace. cbn [result trace].
  rewrite Run_bind_result, Run_bind_trace. cbn [result trace emit].
  rewrite Run_bind_result, Run_bind_trace. fold expr rows init.
  destruct (result init) as [e|found]; [done|].
  rewrite Run_bind_result, Run_bind_trace. simpl.
  destruct (mapM _ _); simpl; by rewrite ?app_nil_r.
Qed.

(** C2, amended: when the query parses and a global init-input is found in
    none of its input collections, [makeGraph] raises the [GraphBuilderError]
    that names a missing init-input (the first one in iteration order); the
    error is raised after [selectDimensions] was called, by [find] calls
    only. When [makeGraph] returns, each init-input recorded is the first
    match in the priority order of the collections. *)
Theorem missing_init_input (self : GraphBuilder) (h : Store) (pipeline : list Loc)
    (originInfo : DatasetOriginInfo) (userQuery : option string) (h' : Store)
    (taskDatasets : list _TaskDatasetTypes)
    (gInputs gOutputs gInitInputs gInitOutputs : gset DatasetType)
    (tree : option Tree) (d : DatasetType) :
  result (collectPipeline self h pipeline) = inr (h', taskDatasets) →
  _makeFullIODatasetTypes taskDatasets = inr (gInputs, gOutputs, gInitInputs, gInitOutputs) →
  ParserYacc_parse (or_empty userQuery) = inr tree →
  let run := makeGraph' self h pipeline originInfo userQuery in
  (d ∈ gInitInputs → notFound (registry self) originInfo d →
   ∃ d' finds,
     d' ∈ gInitInputs ∧ notFound (registry self) originInfo d' ∧
     result run = inl (initInputMissing d') ∧
     Forall isFind finds ∧
     trace run = trace (collectPipeline self h pipeline)
                 ++ EvParse (or_empty userQuery)
                 :: EvSelectDimensions (Tree_str <$> tree) gInputs gOutputs :: finds) ∧
  (∀ h'' qgraph, result run = inr (h'', qgraph) →
     Forall2 (λ dsType ref,
                firstMatchIn (registry self) dsType
                  (getInputCollections originInfo (name dsType)) ref)
             (elements gInitInputs) (graph_initInputs qgraph)).
Proof.
  intros Hc Hio Hp run.
  destruct (makeGraph_unfold self h pipeline originInfo userQuery _ _ _ _ _ _ Hc Hio)
    as [Htr Hres].
  destruct (_makeGraph_parsed self taskDatasets gInputs gOutputs gInitInputs gInitOutputs
              originInfo userQuery tree Hp) as [Htr' Hres'].
  unfold run. rewrite Htr, Hres, Htr', Hres'. clear Htr Hres Htr' Hres'. split.
  - intros Hd Hnf.
    destruct (findInitInputs_missing (registry self) originInfo (elements gInitInputs) [] d)
      as (d' & Hd' & Hnf' & Hr); [by apply elem_of_elements|done|].
    exists d', (trace (findInitInputs (registry self) originInfo (elements gInitInputs) [])).
    rewrite Hr. split; [by apply elem_of_elements|]. split; [done|]. split; [done|].
    split; [apply findInitInputs_trace|done].
  - intros h'' qgraph.
    pose proof (findInitInputs_result (registry self) originInfo (elements gInitInputs) []) as H.
    destruct (result (findInitInputs _ _ _ _)) as [e|found]; [done|].
    destruct H as (l' & -> & HF). destruct (mapM _ _) as [e|nodes]; simpl; [done|].
    intros [= <- <-]. done.
Qed.

End BuilderFacts.

(** ** Python dicts *)

Section PyDictFacts.
Context {K V : Type} `{EqDecision K}.
Implicit Types (d : pydict K V) (k : K) (v : V).

Lemma dict_get_set_eq k v d : dict_get k (dict_set k v d) = Some v.
Proof.
  induction d as [|[k' v'] d IH]; simpl; [by rewrite decide_True|].
  case_decide as Hk; simpl; [by rewrite decide_True|]. by rewrite decide_False.
Qed.

Lemma dict_get_set_ne k k' v d : k ≠ k' → dict_get k' (dict_set k v d) = dict_get k' d.
Proof.
  intros Hne. induction d as [|[k'' v''] d IH]; simpl; [by rewrite decide_False|].
  case_decide as Hk; simpl.
  - subst k''. by rewrite !(decide_False (P := k' = k)).
  - case_decide; [done|apply IH].
Qed.

Lemma dict_get_set k k' v d :
  dict_get k' (dict_set k v d) = if decide (k = k') then Some v else dict_get k' d.
Proof. case_decide as Hk; [subst; apply dict_get_set_eq|by apply dict_get_set_ne]. Qed.

Lemma dict_get_Some_elem k v d : dict_get k d = Some v → (k, v) ∈ d.
Proof.
  induction d as [|[k' v'] d IH]; simpl; [done|]. case_decide.
  - intros [= ->]. subst. left.
  - intros Hd. right. auto.
Qed.

Lemma dict_get_None k d : dict_get k d = None ↔ k ∉ dict_keys d.
Proof.
  unfold dict_keys. induction d as [|[k' v'] d IH]; simpl.
  - split; [intros _; apply not_elem_of_nil|done].
  - rewrite not_elem_of_cons. case_decide; [|tauto]. split; [done|tauto].
Qed.

Lemma dict_get_is_Some k d : is_Some (dict_get k d) ↔ k ∈ dict_keys d.
Proof.
  rewrite <- not_eq_None_Some, dict_get_None. split; [|tauto].
  intros Hn. destruct (decide (k ∈ dict_keys d)); tauto.
Qed.

Lemma dict_elem_get k v d : NoDup (dict_keys d) → (k, v) ∈ d → dict_get k d = Some v.
Proof.
  unfold dict_keys. induction d as [|[k' v'] d IH]; simpl.
  - intros _ Hin. by apply elem_of_nil in Hin.
  - intros [Hk' Hnd]%NoDup_cons [Heq|Hin]%elem_of_cons.
    + simplify_eq. by rewrite decide_True.
    + case_decide; [|auto]. subst k'. destruct Hk'.
      apply list_elem_of_fmap. by exists (k, v).
Qed.

Lemma dict_keys_set k v d :
  dict_keys (dict_set k v d)
  = if dict_get k d then dict_keys d else dict_keys d ++ [k].
Proof.
  induction d as [|[k' v'] d IH]; simpl; [done|].
  case_decide; [by subst|]. unfold dict_keys in *. rewrite fmap_cons, IH.
  by destruct (dict_get k d).
Qed.

Lemma dict_set_NoDup k v d : NoDup (dict_keys d) → NoDup (dict_keys (dict_set k v d)).
Proof.
  intros Hnd. rewrite dict_keys_set. destruct (dict_get k d) eqn:Hk; [done|].
  apply NoDup_app. split; [done|]. split; [|apply NoDup_singleton].
  intros k' Hk' ->%list_elem_of_singleton. by apply dict_get_None in Hk.
Qed.

Lemma dict_set_elem k v d k' v' :
  (k', v') ∈ dict_set k v d → (k' = k ∧ v' = v) ∨ (k', v') ∈ d.
Proof.
  induction d as [|[k'' v''] d IH]; simpl.
  - intros Hin%list_elem_of_singleton. simplify_eq. by left.
  - case_decide.
    + intros [Heq|Hin]%elem_of_cons; [simplify_eq; by left|]. right. by right.
    + intros [Heq|Hin]%elem_of_cons; [simplify_eq; right; left|].
      destruct (IH Hin) as [?|?]; [by left|right; by right].
Qed.

Lemma dict_values_elem v d : v ∈ dict_values d ↔ ∃ k, (k, v) ∈ d.
Proof.
  unfold dict_values. rewrite list_elem_of_fmap. split.
  - intros ([k v'] & -> & Hin). by exists k.
  - intros (k & Hin). by exists (k, v).
Qed.

Lemma dict_values_get v d :
  NoDup (dict_keys d) → v ∈ dict_values d ↔ ∃ k, dict_get k d = Some v.
Proof.
  intros Hnd. rewrite dict_values_elem. split.
  - intros (k & Hin). exists k. by apply dict_elem_get.
  - intros (k & Hk). exists k. by apply dict_get_Some_elem.
Qed.

Lemma dict_setdefault_set k v dflt d :
  dict_set k v (dict_setdefault k dflt d).1 = dict_set k v d.
Proof.
  unfold dict_setdefault. destruct (dict_get k d) eqn:Hk; simpl; [done|].
  induction d as [|[k' v'] d IH]; simpl in *; [by rewrite decide_True|].
  case_decide; simpl; [done|]. rewrite decide_False by done. f_equal. by apply IH.
Qed.

Lemma dict_setdefault_value k dflt d :
  (dict_setdefault k dflt d).2 = default dflt (dict_get k d).
Proof. unfold dict_setdefault. by destruct (dict_get k d). Qed.
End PyDictFacts.

(** ** Grouping the rows *)

Lemma dict_set_set {K V} `{EqDecision K} (k : K) (v v0 : V) (d : pydict K V) :
  dict_set k v (dict_set k v0 d) = dict_set k v d.
Proof.
  induction d as [|[k' v'] d IH]; simpl; [by rewrite decide_True|].
  case_decide; simpl; [by rewrite decide_True|]. rewrite decide_False by done. by rewrite IH.
Qed.

Lemma dict_setdefault_eq {K V} `{EqDecision K} (k : K) (dflt : V) (d : pydict K V) :
  dict_setdefault k dflt d
  = (if dict_get k d then d else dict_set k dflt d, default dflt (dict_get k d)).
Proof. unfold dict_setdefault. by destruct (dict_get k d). Qed.

Lemma addDataRefs_cons row d ds q :
  addDataRefs row (d :: ds) q
  = dataRef ← subscript (datasetRefs row !! d); addDataRefs row ds (putRef d dataRef q).
Proof.
  cbn [addDataRefs]. rewrite dict_setdefault_eq. unfold putRef.
  destruct (datasetRefs row !! d) as [r|]; simpl; [|done].
  destruct (dict_get _ _) as [refs|]; simpl; [done|]. by rewrite dict_set_set.
Qed.

Lemma addRow1_unfold qlinks ds tq row :
  addRow1 qlinks ds tq row
  = qkey ← quantumKey qlinks row;
    qrefs ← addDataRefs row ds (default [] (dict_get qkey tq));
    mret (dict_set qkey qrefs tq).
Proof.
  unfold addRow1. destruct (quantumKey qlinks row) as [e|k]; simpl; [done|].
  rewrite dict_setdefault_eq.
  destruct (addDataRefs _ _ _) as [e|q']; simpl; [done|].
  destruct (dict_get _ _) as [q|]; simpl; [done|]. by rewrite dict_set_set.
Qed.

Lemma get2_putRef d r q d' x :
  get2 (putRef d r q) d' x
  = if decide (d = d' ∧ _dataRefKey r = x) then Some r else get2 q d' x.
Proof.
  unfold get2, putRef. rewrite dict_get_set. destruct (decide (d = d')) as [->|Hd]; simpl.
  - rewrite dict_get_set. destruct (decide (_dataRefKey r = x)) as [->|Hx].
    + by rewrite decide_True.
    + rewrite decide_False by tauto. by destruct (dict_get d' q).
  - by rewrite decide_False by tauto.
Qed.

Lemma putRef_keys d r q d' :
  is_Some (dict_get d' (putRef d r q)) ↔ d = d' ∨ is_Some (dict_get d' q).
Proof.
  unfold putRef. rewrite dict_get_set. case_decide; [|naive_solver].
  split; [by left|eauto].
Qed.

Lemma wf2_nil : wf2 [].
Proof. split; [constructor|constructor]. Qed.

Lemma wf2_lookup q d refs : wf2 q → dict_get d q = Some refs → NoDup (dict_keys refs).
Proof.
  intros [_ HF] Hd%dict_get_Some_elem. rewrite Forall_forall in HF. apply (HF _ Hd).
Qed.

Lemma dict_set_Forall {K V} `{EqDecision K} (P : K * V → Prop) k v (d : pydict K V) :
  P (k, v) → Forall P d → Forall P (dict_set k v d).
Proof.
  intros Hkv HF. apply Forall_forall. intros [k' v'] [[-> ->]|Hin]%dict_set_elem; [done|].
  rewrite Forall_forall in HF. by apply HF.
Qed.

Lemma putRef_wf2 d r q : wf2 q → wf2 (putRef d r q).
Proof.
  intros Hwf. pose proof Hwf as [Hnd HF]. unfold putRef. split; [by apply dict_set_NoDup|].
  apply dict_set_Forall; [|done]. simpl. apply dict_set_NoDup.
  destruct (dict_get d q) as [refs|] eqn:Hd; simpl; [by eapply wf2_lookup|constructor].
Qed.

(** What the loop over the dataset types of one row leaves in the dict. *)
Lemma addDataRefs_inr row ds : ∀ q q',
  addDataRefs row ds q = inr q' →
  (∀ d, d ∈ ds → is_Some (datasetRefs row !! d)) ∧
  (wf2 q → wf2 q') ∧
  (∀ d, is_Some (dict_get d q') ↔ d ∈ ds ∨ is_Some (dict_get d q)) ∧
  (∀ d x, get2 q' d x
          = match datasetRefs row !! d with
            | Some r => if decide (d ∈ ds ∧ _dataRefKey r = x) then Some r else get2 q d x
            | None => get2 q d x
            end).
Proof.
  induction ds as [|d0 ds IH]; intros q q'.
  - intros [= <-]. split; [by intros d ?%elem_of_nil|]. split; [done|]. split.
    + intros d. split; [by right|]. by intros [?%elem_of_nil|].
    + intros d x. destruct (datasetRefs row !! d); [|done].
      rewrite decide_False; [done|]. by intros [?%elem_of_nil _].
  - rewrite addDataRefs_cons. destruct (datasetRefs row !! d0) as [r0|] eqn:Hr0; [|done].
    simpl. intros (Hall & Hwf & Hkeys & Hget)%IH. split; [|split; [|split]].
    + intros d [->|Hd]%elem_of_cons; [by rewrite Hr0|auto].
    + intros Hq. by apply Hwf, putRef_wf2.
    + intros d. rewrite Hkeys, putRef_keys, elem_of_cons. naive_solver.
    + intros d x. rewrite Hget, get2_putRef.
      destruct (decide (d0 = d)) as [<-|Hne].
      * rewrite Hr0. destruct (decide (_dataRefKey r0 = x)) as [Hx|Hx].
        -- rewrite (decide_True (P := d0 ∈ d0 :: ds ∧ _)) by (split; [left|done]).
           rewrite (decide_True (P := d0 = d0 ∧ _)) by done. by destruct (decide _).
        -- by rewrite !decide_False by tauto.
      * rewrite (decide_False (P := d0 = d ∧ _)) by tauto.
        destruct (datasetRefs row !! d) as [r|]; [|done].
        destruct (decide (d ∈ ds ∧ _dataRefKey r = x)) as [[? ?]|Hn].
        -- rewrite decide_True; [done|]. split; [by right|done].
        -- rewrite decide_False; [done|]. intros [[?|?]%elem_of_cons ?]; [done|tauto].
Qed.

Lemma addDataRefs_total row ds : ∀ q,
  (∀ d, d ∈ ds → is_Some (datasetRefs row !! d)) → ∃ q', addDataRefs row ds q = inr q'.
Proof.
  induction ds as [|d0 ds IH]; intros q Hall; [by eexists|].
  rewrite addDataRefs_cons. destruct (Hall d0) as [r ->]; [left|]. simpl.
  apply IH. intros d Hd. apply Hall. by right.
Qed.

Lemma wf3_nil : wf3 [].
Proof. split; constructor. Qed.

Lemma wf3_lookup tq k q : wf3 tq → dict_get k tq = Some q → wf2 q.
Proof.
  intros [_ HF] Hd%dict_get_Some_elem. rewrite Forall_forall in HF. apply (HF _ Hd).
Qed.

Lemma get3_set k q tq k' d x :
  get3 (dict_set k q tq) k' d x = if decide (k = k') then get2 q d x else get3 tq k' d x.
Proof. unfold get3. rewrite dict_get_set. by case_decide. Qed.

Lemma get2_default (tq : TaskQuanta) k d x :
  get2 (default [] (dict_get k tq)) d x = get3 tq k d x.
Proof. unfold get3. destruct (dict_get k tq); reflexivity. Qed.

(** What one row does to one of the two dicts. *)
Lemma addRow1_inr qlinks ds tq row tq' :
  addRow1 qlinks ds tq row = inr tq' →
  ∃ k, quantumKey qlinks row = inr k ∧
    (∀ d, d ∈ ds → is_Some (datasetRefs row !! d)) ∧
    (wf3 tq → wf3 tq') ∧
    (∀ k', is_Some (dict_get k' tq') ↔ k' = k ∨ is_Some (dict_get k' tq)) ∧
    (∀ k' d x, get3 tq' k' d x
       = match datasetRefs row !! d with
         | Some r => if decide (k' = k ∧ d ∈ ds ∧ _dataRefKey r = x) then Some r
                     else get3 tq k' d x
         | None => get3 tq k' d x
         end).
Proof.
  rewrite addRow1_unfold. destruct (quantumKey qlinks row) as [e|k]; [done|]. simpl.
  destruct (addDataRefs row ds _) as [e|q'] eqn:Hq; [done|]. simpl. intros [= <-].
  apply addDataRefs_inr in Hq as (Hall & Hwf & Hkeys & Hget).
  exists k. split; [done|]. split; [done|]. split; [|split].
  - intros Htq. pose proof Htq as [Hnd HF]. split; [by apply dict_set_NoDup|].
    apply dict_set_Forall; [|done]. simpl. apply Hwf.
    destruct (dict_get k tq) as [q|] eqn:Hk; simpl; [by eapply wf3_lookup|apply wf2_nil].
  - intros k'. rewrite dict_get_set. case_decide; [|naive_solver]. split; [by left|eauto].
  - intros k' d x. rewrite get3_set. destruct (decide (k = k')) as [<-|Hne].
    + rewrite Hget, get2_default. destruct (datasetRefs row !! d) as [r|]; [|done].
      destruct (decide (d ∈ ds ∧ _)) as [[? ?]|Hn].
      * by rewrite decide_True.
      * rewrite decide_False; [done|]. tauto.
    + destruct (datasetRefs row !! d) as [r|]; [|done].
      rewrite decide_False; [done|]. intros [-> _]. done.
Qed.

Lemma addRow1_total qlinks ds tq row k :
  quantumKey qlinks row = inr k → (∀ d, d ∈ ds → is_Some (datasetRefs row !! d)) →
  ∃ tq', addRow1 qlinks ds tq row = inr tq'.
Proof.
  intros Hk Hall. rewrite addRow1_unfold, Hk. simpl.
  destruct (addDataRefs_total row ds (default [] (dict_get k tq)) Hall) as [q' ->].
  by eexists.
Qed.

Lemma addRows1_snoc qlinks ds tq rows row :
  addRows1 qlinks ds tq (rows ++ [row])
  = tq' ← addRows1 qlinks ds tq rows; addRow1 qlinks ds tq' row.
Proof. unfold addRows1. by rewrite foldl_app. Qed.

Lemma addRows1_inl qlinks ds e rows :
  foldl (λ acc row, tq ← acc; addRow1 qlinks ds tq row) (inl e) rows = inl e.
Proof. induction rows as [|row rows IH]; [done|]. simpl. apply IH. Qed.

Lemma addRows1_cons qlinks ds tq rows row :
  addRows1 qlinks ds tq (row :: rows)
  = tq' ← addRow1 qlinks ds tq row; addRows1 qlinks ds tq' rows.
Proof.
  unfold addRows1. simpl. destruct (addRow1 qlinks ds tq row) as [e|tq']; simpl; [|done].
  apply addRows1_inl.
Qed.

Lemma addRows1_total qlinks ds rows : ∀ tq,
  Forall (rowOk qlinks ds) rows → ∃ tq', addRows1 qlinks ds tq rows = inr tq'.
Proof.
  induction rows as [|row rows IH]; intros tq HF; [by eexists|].
  apply Forall_cons in HF as [[[k Hk] Hall] HF]. rewrite addRows1_cons.
  destruct (addRow1_total qlinks ds tq row k Hk Hall) as [tq1 ->]. simpl. by apply IH.
Qed.

(** The dict after all rows. *)
Lemma addRows1_inr qlinks ds rows : ∀ tq,
  addRows1 qlinks ds [] rows = inr tq →
  Forall (rowOk qlinks ds) rows ∧
  wf3 tq ∧
  (∀ k, is_Some (dict_get k tq) ↔ ∃ row, row ∈ rows ∧ quantumKey qlinks row = inr k) ∧
  (∀ k d x r, get3 tq k d x = Some r →
     ∃ row, row ∈ rows ∧ quantumKey qlinks row = inr k ∧ d ∈ ds ∧
            datasetRefs row !! d = Some r ∧ _dataRefKey r = x) ∧
  (∀ row k d r, row ∈ rows → quantumKey qlinks row = inr k → d ∈ ds →
     datasetRefs row !! d = Some r → is_Some (get3 tq k d (_dataRefKey r))).
Proof.
  induction rows as [|row rows IH] using rev_ind; intros tq.
  - intros [= <-]. split; [constructor|]. split; [apply wf3_nil|]. split; [|split].
    + intros k. split; [by intros [? ?]|]. by intros (? & ?%elem_of_nil & _).
    + intros k d x r. done.
    + intros row k d r ?%elem_of_nil. done.
  - rewrite addRows1_snoc. destruct (addRows1 qlinks ds [] rows) as [e|tq0]; [done|]. simpl.
    destruct (IH tq0 eq_refl) as (Hok & Hwf & Hkeys & Hfrom & Hto).
    intros (k & Hk & Hall & Hwf' & Hkeys' & Hget)%addRow1_inr.
    split; [|split; [|split; [|split]]].
    + apply Forall_app. split; [done|]. constructor; [|constructor]. split; eauto.
    + auto.
    + intros k'. rewrite Hkeys', Hkeys. setoid_rewrite elem_of_app.
      setoid_rewrite list_elem_of_singleton. split.
      * intros [->|(r & ? & ?)]; eauto.
      * intros (r & [?| ->] & ?); [eauto|]. left. congruence.
    + intros k' d x r. rewrite Hget. setoid_rewrite elem_of_app.
      setoid_rewrite list_elem_of_singleton.
      destruct (datasetRefs row !! d) as [r'|] eqn:Hr.
      * case_decide as Hc.
        -- intros [= <-]. destruct Hc as (-> & ? & ?). exists row. eauto 10.
        -- intros (row' & ? & ?)%Hfrom. exists row'. eauto.
      * intros (row' & ? & ?)%Hfrom. exists row'. eauto.
    + intros row' k' d r [Hin| ->%list_elem_of_singleton]%elem_of_app Hk' Hd Hr; rewrite Hget.
      * destruct (datasetRefs row !! d) as [r'|]; [|eauto]. case_decide; eauto.
      * rewrite Hr. rewrite decide_True; [eauto|]. split; [congruence|done].
Qed.

Lemma addRow_split qlinks t tqi tqo row :
  addRow qlinks t (tqi, tqo) row
  = tqi' ← addRow1 qlinks (inputs t) tqi row;
    tqo' ← addRow1 qlinks (outputs t) tqo row;
    mret (tqi', tqo').
Proof.
  rewrite !addRow1_unfold. unfold addRow.
  destruct (quantumKey qlinks row) as [e|k]; [done|]. simpl.
  rewrite !dict_setdefault_eq.
  destruct (addDataRefs row (inputs t) _) as [e|qi]; [done|]. simpl.
  destruct (addDataRefs row (outputs t) _) as [e|qo]; [done|]. simpl.
  do 2 f_equal.
  - destruct (dict_get _ _); [done|apply dict_set_set].
  - destruct (dict_get _ _); [done|apply dict_set_set].
Qed.

Lemma addRows_split qlinks t rows : ∀ tqi tqo a b,
  addRows qlinks t (tqi, tqo) rows = inr (a, b) ↔
  addRows1 qlinks (inputs t) tqi rows = inr a ∧ addRows1 qlinks (outputs t) tqo rows = inr b.
Proof.
  induction rows as [|row rows IH]; intros tqi tqo a b.
  - simpl. unfold addRows1. simpl. split; [by intros [= -> ->]|by intros [[= ->] [= ->]]].
  - cbn [addRows]. rewrite !addRows1_cons, addRow_split.
    destruct (addRow1 qlinks (inputs t) tqi row) as [e|tqi1]; simpl; [split; [done|by intros [? _]]|].
    destruct (addRow1 qlinks (outputs t) tqo row) as [e|tqo1]; simpl.
    + split; [done|]. intros [_ ?]. done.
    + apply IH.
Qed.

Lemma elem_of_concat {A} (x : A) (ls : list (list A)) :
  x ∈ concat ls ↔ ∃ l, x ∈ l ∧ l ∈ ls.
Proof.
  induction ls as [|l ls IH]; simpl.
  - split; [by intros ?%elem_of_nil|by intros (? & _ & ?%elem_of_nil)].
  - rewrite elem_of_app, IH. setoid_rewrite elem_of_cons. naive_solver.
Qed.

Lemma chainValues_elem q r :
  wf2 q → r ∈ chainValues q ↔ ∃ d x, get2 q d x = Some r.
Proof.
  intros [Hnd HF]. unfold chainValues. rewrite elem_of_concat. split.
  - intros (l & Hr & (refs & -> & Hrefs)%list_elem_of_fmap).
    apply (dict_values_get _ _ Hnd) in Hrefs as [d Hd].
    assert (NoDup (dict_keys refs)) as Hnd'.
    { apply dict_get_Some_elem in Hd. rewrite Forall_forall in HF. apply (HF _ Hd). }
    apply (dict_values_get _ _ Hnd') in Hr as [x Hx].
    exists d, x. unfold get2. rewrite Hd. done.
  - intros (d & x & Hget). unfold get2 in Hget.
    destruct (dict_get d q) as [refs|] eqn:Hd; [|done]. simpl in Hget.
    exists (dict_values refs). split.
    + apply dict_values_elem. exists x. by apply dict_get_Some_elem.
    + apply list_elem_of_fmap. exists refs. split; [done|].
      apply dict_values_elem. exists d. by apply dict_get_Some_elem.
Qed.

Lemma foldl_addOutput quantum refs :
  foldl addOutput quantum refs
  = mkQuantum (predictedInputs quantum) (quantum_outputs quantum ++ refs).
Proof.
  revert quantum. induction refs as [|r refs IH]; intros [i o]; simpl.
  - by rewrite app_nil_r.
  - rewrite IH. simpl. by rewrite <- app_assoc.
Qed.

Lemma foldl_addPredictedInput quantum refs :
  foldl addPredictedInput quantum refs
  = mkQuantum (predictedInputs quantum ++ refs) (quantum_outputs quantum).
Proof.
  revert quantum. induction refs as [|r refs IH]; intros [i o]; simpl.
  - by rewrite app_nil_r.
  - rewrite IH. simpl. by rewrite <- app_assoc.
Qed.

(** The three outcomes of the existence check. *)
Lemma makeQuantum_cases skip tn qinputs qoutputs :
  let outputs := chainValues qoutputs in
  makeQuantum skip tn qinputs qoutputs
  = if skip && forallb exists_ outputs then inr None
    else if existsb exists_ outputs then inl (OutputExistsError tn outputs)
    else inr (Some (mkQuantum (chainValues qinputs) outputs)).
Proof.
  intros outputs. unfold makeQuantum. fold outputs.
  destruct (skip && _); [done|]. destruct (existsb _ _); [done|].
  by rewrite foldl_addPredictedInput, foldl_addOutput.
Qed.

Lemma makeQuanta_app skip tn tqo items : ∀ acc,
  makeQuanta skip tn tqo items acc
  = quanta ← makeQuanta skip tn tqo items []; mret (acc ++ quanta).
Proof.
  induction items as [|[k qin] items IH]; intros acc; simpl.
  - by rewrite app_nil_r.
  - destruct (dict_get k tqo) as [qout|]; simpl; [|done].
    destruct (makeQuantum skip tn qin qout) as [e|[q|]]; simpl; [done| |].
    + rewrite IH. rewrite (IH [q]).
      destruct (makeQuanta skip tn tqo items []); simpl; [done|]. by rewrite <- app_assoc.
    + apply IH.
Qed.

Lemma makeQuanta_cons skip tn tqo k qin items :
  makeQuanta skip tn tqo ((k, qin) :: items) []
  = qout ← subscript (dict_get k tqo);
    quantum ← makeQuantum skip tn qin qout;
    quanta ← makeQuanta skip tn tqo items [];
    mret (match quantum with Some q => q :: quanta | None => quanta end).
Proof.
  cbn [makeQuanta]. destruct (dict_get k tqo) as [qout|]; simpl; [|done].
  destruct (makeQuantum skip tn qin qout) as [e|[q|]]; simpl; [done| |].
  - rewrite makeQuanta_app. by destruct (makeQuanta skip tn tqo items []).
  - by destruct (makeQuanta skip tn tqo items []).
Qed.

(** ** The existence policy *)

Lemma mapM_Exc_inr {A B} (f : A → Exc B) l ys :
  mapM f l = inr ys → Forall2 (λ x y, f x = inr y) l ys.
Proof.
  revert ys. induction l as [|x l IH]; intros ys.
  - intros [= <-]. constructor.
  - rewrite mapM_cons. destruct (f x) as [e|y] eqn:Hx; [done|]. simpl.
    destruct (mapM f l) as [e|ys']; [done|]. simpl. intros [= <-]. constructor; auto.
Qed.


Lemma mapM_Exc_Forall2 {A B} (f : A → Exc B) l ys :
  Forall2 (λ x y, f x = inr y) l ys → mapM f l = inr ys.
Proof.
  induction 1 as [|x y l ys Hx _ IH]; [done|]. rewrite mapM_cons, Hx. simpl. by rewrite IH.
Qed.



(** Every quantum of the list comes from an item of the loop. *)
Lemma makeQuanta_from skip tn tqo items quanta quantum :
  makeQuanta skip tn tqo items [] = inr quanta → quantum ∈ quanta →
  ∃ k qin qout, (k, qin) ∈ items ∧ dict_get k tqo = Some qout ∧
                makeQuantum skip tn qin qout = inr (Some quantum).
Proof.
  revert quanta. induction items as [|[k' qin'] items IH]; intros quanta.
  - intros [= <-] ?%elem_of_nil. done.
  - rewrite makeQuanta_cons.
    destruct (dict_get k' tqo) as [qout'|] eqn:Hk'; simpl; [|done].
    destruct (makeQuantum skip tn qin' qout') as [?|v] eqn:Hv; simpl; [done|].
    destruct (makeQuanta skip tn tqo items []) as [?|qs]; simpl; [done|]. intros [= <-] Hin.
    assert (quantum ∈ qs → ∃ k qin qout, (k, qin) ∈ (k', qin') :: items ∧
              dict_get k tqo = Some qout ∧ makeQuantum skip tn qin qout = inr (Some quantum)).
    { intros (k & qin & qout & ? & ? & ?)%(IH qs eq_refl). exists k, qin, qout.
      split; [by right|done]. }
    destruct v as [q|]; [|auto]. apply elem_of_cons in Hin as [->|Hin]; [|auto].
    exists k', qin', qout'. split; [left|done].
Qed.

Lemma makeTaskNodes_unfold self rows t ql tqi tqo :
  quantumLinks (registry_dimensions (registry self))
               (quantum_dimensions (config (taskDef t))) [] = inr ql →
  addRows ql t ([], []) rows = inr (tqi, tqo) →
  makeTaskNodes self rows t
  = quanta ← makeQuanta (skipExisting self) (taskName (taskDef t)) tqo tqi [];
    mret (mkNodes (taskDef t) quanta).
Proof. intros Hl Hr. unfold makeTaskNodes. rewrite Hl. simpl. rewrite Hr. done. Qed.

Lemma makeTaskNodes_inr self rows t nodes :
  makeTaskNodes self rows t = inr nodes →
  ∃ ql tqi tqo,
    quantumLinks (registry_dimensions (registry self))
                 (quantum_dimensions (config (taskDef t))) [] = inr ql ∧
    addRows ql t ([], []) rows = inr (tqi, tqo) ∧
    makeQuanta (skipExisting self) (taskName (taskDef t)) tqo tqi [] = inr (quanta nodes) ∧
    nodes_taskDef nodes = taskDef t.
Proof.
  unfold makeTaskNodes. destruct (quantumLinks _ _ _) as [e|ql] eqn:Hl; [done|]. simpl.
  destruct (addRows ql t _ rows) as [e|[tqi tqo]] eqn:Hr; [done|]. simpl.
  destruct (makeQuanta _ _ _ _ _) as [e|qs] eqn:Hq; [done|]. simpl. intros [= <-].
  exists ql, tqi, tqo. done.
Qed.




Section QuantaFacts.
Context {Tree : Type}.
Variable Tree_str : Tree → string.
Variable ParserYacc_parse : string → string + option Tree.

Abbreviation makeGraph'' := (makeGraph Tree_str ParserYacc_parse).
Abbreviation _makeGraph'' := (_makeGraph Tree_str ParserYacc_parse).

Lemma _makeGraph_inr self tds gi go gii gio originInfo userQuery qgraph :
  result (_makeGraph'' self tds gi go gii gio originInfo userQuery) = inr qgraph →
  ∃ tree found nodes,
    ParserYacc_parse (or_empty userQuery) = inr tree ∧
    result (findInitInputs (registry self) originInfo (elements gii) []) = inr found ∧
    mapM (makeTaskNodes self
            (selectDimensions (registry self) originInfo (Tree_str <$> tree) gi go)) tds
      = inr nodes ∧
    qgraph = mkGraph nodes gi go found
               ((λ dsType, mkDatasetRef dsType ∅ None) <$> elements gio).
Proof.
  destruct (ParserYacc_parse (or_empty userQuery)) as [exc|tree] eqn:Hp.
  - by rewrite (_makeGraph_parse_failure _ _ _ _ _ _ _ _ _ _ _ Hp).
  - destruct (_makeGraph_parsed Tree_str ParserYacc_parse self tds gi go gii gio
                originInfo userQuery tree Hp) as [_ ->].
    destruct (result (findInitInputs _ _ _ _)) as [e|found] eqn:Hf; [done|].
    destruct (mapM _ _) as [e|nodes] eqn:Hn; [done|]. simpl. intros [= <-].
    exists tree, found, nodes. done.
Qed.

Lemma makeGraph_inr self h pipeline originInfo userQuery h' qgraph :
  result (makeGraph'' self h pipeline originInfo userQuery) = inr (h', qgraph) →
  ∃ tds gi go gii gio,
    result (collectPipeline self h pipeline) = inr (h', tds) ∧
    _makeFullIODatasetTypes tds = inr (gi, go, gii, gio) ∧
    result (_makeGraph'' self tds gi go gii gio originInfo userQuery) = inr qgraph.
Proof.
  unfold makeGraph. rewrite Run_bind_result.
  destruct (result (collectPipeline self h pipeline)) as [e|[h1 tds]] eqn:Hc; [done|].
  rewrite Run_bind_result. simpl.
  destruct (_makeFullIODatasetTypes tds) as [e|[[[gi go] gii] gio]] eqn:Hio; [done|].
  rewrite Run_bind_result.
  destruct (result (_makeGraph _ _ _ _ _ _ _ _ _ _)) as [e|g] eqn:Hg; [done|].
  simpl. intros [= <- <-]. exists tds, gi, go, gii, gio. done.
Qed.


(** C10: in a graph that [makeGraph] returns, no output of any quantum of
    any task has an existing identity. *)
Theorem no_existing_output (self : GraphBuilder) (h : Store) (pipeline : list Loc)
    (originInfo : DatasetOriginInfo) (userQuery : option string) (h' : Store)
    (qgraph : QuantumGraph) (nodes : QuantumGraphTaskNodes) (quantum : Quantum)
    (ref : DatasetRef) :
  result (makeGraph'' self h pipeline originInfo userQuery) = inr (h', qgraph) →
  nodes ∈ graph_nodes qgraph → quantum ∈ quanta nodes → ref ∈ quantum_outputs quantum →
  ref_id ref = None.
Proof.
  intros (tds & gi & go & gii & gio & _ & _ & Hg)%makeGraph_inr Hn Hq Href.
  apply _makeGraph_inr in Hg as (tree & found & ns & _ & _ & Hns & ->). simpl in Hn.
  apply mapM_Exc_inr in Hns. apply list_elem_of_lookup in Hn as [i Hi].
  destruct (Forall2_lookup_r _ _ _ _ _ Hns Hi) as (t & _ & Hmk).
  apply makeTaskNodes_inr in Hmk as (ql & tqi & tqo & _ & _ & Hqs & _).
  destruct (makeQuanta_from _ _ _ _ _ _ Hqs Hq) as (k & qin & qout & _ & _ & Hmq).
  rewrite makeQuantum_cases in Hmq.
  destruct (skipExisting self && _); [done|].
  destruct (existsb exists_ (chainValues qout)) eqn:Hex; [done|].
  injection Hmq as <-. simpl in Href.
  destruct (ref_id ref) as [i'|] eqn:Hid; [|done].
  assert (existsb exists_ (chainValues qout) = true); [|congruence].
  apply existsb_exists. exists ref. split; [by apply list_elem_of_In|].
  unfold exists_. by rewrite Hid.
Qed.
End QuantaFacts.

(** ** Tasks without outputs *)

(** With no output dataset type, every grouping key holds an empty dict. *)
Lemma addRows1_no_dsTypes qlinks rows : ∀ tq,
  addRows1 qlinks [] [] rows = inr tq → Forall (λ p, p.2 = []) tq.
Proof.
  induction rows as [|row rows IH] using rev_ind; intros tq.
  - intros [= <-]. constructor.
  - rewrite addRows1_snoc. destruct (addRows1 qlinks [] [] rows) as [e|tq0]; [done|].
    specialize (IH tq0 eq_refl). simpl. rewrite addRow1_unfold.
    destruct (quantumKey qlinks row) as [e|k]; [done|]. simpl. intros [= <-].
    apply dict_set_Forall; [|done]. simpl.
    destruct (dict_get k tq0) as [q|] eqn:Hk; [|done]. simpl.
    apply dict_get_Some_elem in Hk. rewrite Forall_forall in IH. apply (IH _ Hk).
Qed.

Lemma makeQuanta_no_outputs skip tn (tqo items : TaskQuanta) :
  (∀ k qin, (k, qin) ∈ items → dict_get k tqo = Some []) →
  makeQuanta skip tn tqo items []
  = inr (if skip then [] else (λ p, mkQuantum (chainValues p.2) []) <$> items).
Proof.
  induction items as [|[k qin] items IH]; intros Hall; [by destruct skip|].
  rewrite makeQuanta_cons, (Hall k qin) by left. simpl.
  rewrite IH by (intros k' qin' Hin'; apply (Hall k' qin'); by right).
  rewrite makeQuantum_cases. destruct skip; done.
Qed.

(** C9: for a task without output dataset types the dict of outputs is
    empty under every grouping key; with [skipExisting] the task has no
    quanta, whatever the rows; without it the task has one quantum for each
    grouping key, with the inputs of the key and no outputs. *)
Theorem no_output_types (self : GraphBuilder) (rows : list DimensionRow)
    (taskDss : _TaskDatasetTypes) (qlinks : list string) (tqi tqo : TaskQuanta) :
  outputs taskDss = [] →
  quantumLinks (registry_dimensions (registry self))
               (quantum_dimensions (config (taskDef taskDss))) [] = inr qlinks →
  addRows qlinks taskDss ([], []) rows = inr (tqi, tqo) →
  (∀ k, k ∈ dict_keys tqi ↔ ∃ row, row ∈ rows ∧ quantumKey qlinks row = inr k) ∧
  NoDup (dict_keys tqi) ∧
  (∀ k, k ∈ dict_keys tqi → dict_get k tqo = Some []) ∧
  (skipExisting self = true →
     makeTaskNodes self rows taskDss = inr (mkNodes (taskDef taskDss) [])) ∧
  (skipExisting self = false →
     makeTaskNodes self rows taskDss
     = inr (mkNodes (taskDef taskDss)
              ((λ p, mkQuantum (chainValues p.2) []) <$> tqi))).
Proof.
  intros Hout Hl Hr. pose proof Hr as [Hi Ho]%addRows_split. rewrite Hout in Ho.
  destruct (addRows1_inr _ _ _ _ Hi) as (_ & [Hnd _] & Hkeys & _).
  destruct (addRows1_inr _ _ _ _ Ho) as (_ & _ & Hkeys' & _).
  pose proof (addRows1_no_dsTypes _ _ _ Ho) as Hempty.
  assert (∀ k, k ∈ dict_keys tqi → dict_get k tqo = Some []) as Hget.
  { intros k Hk%dict_get_is_Some%Hkeys%Hkeys'. destruct Hk as [q Hq]. rewrite Hq.
    apply dict_get_Some_elem in Hq. rewrite Forall_forall in Hempty.
    f_equal. apply (Hempty _ Hq). }
  split; [|split; [done|split; [done|]]].
  { intros k. by rewrite <- dict_get_is_Some, Hkeys. }
  rewrite (makeTaskNodes_unfold _ _ _ _ _ _ Hl Hr), makeQuanta_no_outputs.
  - split; intros ->; done.
  - intros k qin Hin. apply Hget. apply list_elem_of_fmap. by exists (k, qin).
Qed.

(** ** Deduplication *)

Global Instance sameInstance_dec d coord r : Decision (sameInstance d coord r).
Proof. unfold sameInstance. apply _. Defined.

Lemma dataRefKey_inj r1 r2 : _dataRefKey r1 = _dataRefKey r2 ↔ dataId r1 = dataId r2.
Proof.
  split; [|unfold _dataRefKey; by intros ->]. unfold _dataRefKey. intros Heq.
  apply map_to_list_inj.
  rewrite <- (merge_sort_Permutation item_le (map_to_list (dataId r1))).
  rewrite <- (merge_sort_Permutation item_le (map_to_list (dataId r2))).
  by rewrite Heq.
Qed.

Lemma chainValues_groups (q : QuantumRefs) :
  NoDup (dict_keys q) → chainValues q = concat (refsOf q <$> dict_keys q).
Proof.
  intros Hnd. unfold chainValues. f_equal. unfold dict_keys, dict_values at 2.
  rewrite <- !list_fmap_compose. apply Forall_fmap_ext, Forall_forall.
  intros [d refs] Hin. simpl. unfold refsOf. by rewrite (dict_elem_get d refs q Hnd Hin).
Qed.

Lemma filter_none {A} (P : A → Prop) `{∀ a, Decision (P a)} (l : list A) :
  (∀ a, a ∈ l → ¬ P a) → filter P l = [].
Proof.
  induction l as [|a l IH]; intros Hl; [done|]. rewrite filter_cons.
  rewrite decide_False by (apply Hl; left). apply IH. intros a' Ha'. apply Hl. by right.
Qed.

(** Among values whose images under [f] are pairwise distinct, exactly one
    has a given image that occurs. *)
Lemma filter_NoDup_length {A B} `{EqDecision B} (f : A → B) (l : list A) (b : B) :
  NoDup (f <$> l) → b ∈ f <$> l → length (filter (λ a, f a = b) l) = 1.
Proof.
  induction l as [|a l IH]; [by intros _ ?%elem_of_nil|]. rewrite fmap_cons.
  intros [Ha Hnd]%NoDup_cons Hb. rewrite filter_cons. case_decide as Hab.
  - simpl. f_equal. apply length_zero_iff_nil, filter_none.
    intros a' Ha' Heq. apply Ha. rewrite Hab, <- Heq. apply list_elem_of_fmap. eauto.
  - apply IH; [done|]. apply elem_of_cons in Hb as [?|?]; [congruence|done].
Qed.

(** In a concatenation of groups, a property that singles out one group is
    counted in that group alone. *)
Lemma filter_concat_one {A B} `{EqDecision B} (P : A → Prop) `{∀ a, Decision (P a)}
    (g : B → list A) (l : list B) (b : B) :
  NoDup l → b ∈ l → (∀ b' a, b' ∈ l → b' ≠ b → a ∈ g b' → ¬ P a) →
  filter P (concat (g <$> l)) = filter P (g b).
Proof.
  induction l as [|b0 l IH]; [by intros _ ?%elem_of_nil|].
  intros [Hb0 Hnd]%NoDup_cons Hb Hother. rewrite fmap_cons. simpl. rewrite filter_app.
  destruct (decide (b0 = b)) as [->|Hne].
  - rewrite (filter_none P (concat (g <$> l))); [by rewrite app_nil_r|].
    intros a (la & Ha & (b' & -> & Hb')%list_elem_of_fmap)%elem_of_concat.
    apply (Hother b'); [by right| |done]. intros ->. done.
  - rewrite (filter_none P (g b0)); [|intros a Ha; apply (Hother b0); [left|done|done]].
    simpl. apply IH; [done| |].
    + apply elem_of_cons in Hb as [?|?]; [congruence|done].
    + intros b' a Hb'. apply Hother. by right.
Qed.

Lemma filter_length_ext {A} (P Q : A → Prop) `{∀ a, Decision (P a)} `{∀ a, Decision (Q a)}
    (l : list A) :
  (∀ a, a ∈ l → P a ↔ Q a) → filter P l = filter Q l.
Proof.
  induction l as [|a l IH]; intros Hl; [done|]. rewrite !filter_cons.
  rewrite IH by (intros a' Ha'; apply Hl; by right).
  destruct (decide (P a)) as [Hp|Hp], (decide (Q a)) as [Hq|Hq]; try done.
  - destruct Hq. apply Hl; [left|done].
  - destruct Hp. apply Hl; [left|done].
Qed.

(** One dict of the row loop holds, below a grouping key, one reference for
    each dataset instance that a row of the key refers to. *)
Lemma addRows1_dedup qlinks ds rows tq row k d ref :
  addRows1 qlinks ds [] rows = inr tq →
  row ∈ rows → quantumKey qlinks row = inr k → d ∈ ds →
  datasetRefs row !! d = Some ref →
  ∃ q, dict_get k tq = Some q ∧
    NoDup (dict_keys q) ∧ d ∈ dict_keys q ∧
    chainValues q = concat (refsOf q <$> dict_keys q) ∧
    length (filter (λ r, dataId r = dataId ref) (refsOf q d)) = 1 ∧
    (refsTyped rows → length (filter (sameInstance d (dataId ref)) (chainValues q)) = 1).
Proof.
  intros Htq Hrow Hk Hd Href.
  destruct (addRows1_inr _ _ _ _ Htq) as (_ & Hwf & _ & Hfrom & Hto).
  destruct (Hto row k d ref Hrow Hk Hd Href) as [r' Hr']. unfold get3 in Hr'.
  destruct (dict_get k tq) as [q|] eqn:Hq; [|done]. simpl in Hr'.
  pose proof (wf3_lookup _ _ _ Hwf Hq) as Hwfq. pose proof Hwfq as [Hndq _].
  assert (∀ d' x r, get2 q d' x = Some r →
            _dataRefKey r = x ∧ ∃ row', row' ∈ rows ∧ datasetRefs row' !! d' = Some r) as Hq2.
  { intros d' x r Hget. destruct (Hfrom k d' x r) as (row' & ? & _ & _ & ? & ?); [|eauto].
    unfold get3. by rewrite Hq. }
  unfold get2 in Hr'. destruct (dict_get d q) as [refs|] eqn:Hrefs; [|done]. simpl in Hr'.
  pose proof (wf2_lookup _ _ _ Hwfq Hrefs) as Hndr.
  assert (_dataRefKey <$> dict_values refs = dict_keys refs) as Hkeys.
  { unfold dict_values, dict_keys. rewrite <- list_fmap_compose.
    apply Forall_fmap_ext, Forall_forall. intros [x r] Hin. simpl.
    apply (dict_elem_get _ _ _ Hndr) in Hin.
    destruct (Hq2 d x r) as [? _]; [|done]. unfold get2. by rewrite Hrefs. }
  assert (refsOf q d = dict_values refs) as Hof by (unfold refsOf; by rewrite Hrefs).
  assert (length (filter (λ r, dataId r = dataId ref) (refsOf q d)) = 1) as Hone.
  { rewrite Hof.
    rewrite (filter_length_ext _ (λ r, _dataRefKey r = _dataRefKey ref))
      by (intros; by rewrite dataRefKey_inj).
    apply filter_NoDup_length; rewrite Hkeys; [done|].
    apply dict_get_is_Some. eauto. }
  exists q. split; [done|]. split; [done|]. split; [apply dict_get_is_Some; eauto|].
  split; [by apply chainValues_groups|]. split; [done|].
  intros Htyped. rewrite chainValues_groups by done.
  rewrite (filter_concat_one _ (refsOf q) (dict_keys q) d); [..|done| |].
  - rewrite <- Hone. f_equal. apply filter_length_ext. intros r Hr. unfold sameInstance.
    split; [tauto|]. intros Hid. split; [|done]. rewrite Hof in Hr.
    apply (dict_values_get _ _ Hndr) in Hr as [x Hx].
    destruct (Hq2 d x r) as (_ & row' & Hrow' & Hr''); [unfold get2; by rewrite Hrefs|].
    by eapply Htyped.
  - apply dict_get_is_Some. eauto.
  - intros d' r Hd' Hne Hr [Hty _]. unfold refsOf in Hr.
    destruct (dict_get d' q) as [refs'|] eqn:Hrefs'; [|by apply elem_of_nil in Hr].
    simpl in Hr. apply (dict_values_get _ _ (wf2_lookup _ _ _ Hwfq Hrefs')) in Hr as [x Hx].
    destruct (Hq2 d' x r) as (_ & row' & Hrow' & Hr''); [unfold get2; by rewrite Hrefs'|].
    apply Hne. rewrite <- Hty. symmetry. by eapply Htyped.
Qed.

(** C5: when two rows have the same grouping key and, for a dataset type of
    the task, references with the same data coordinate, the dict of that key
    holds exactly one reference with this coordinate for the dataset type,
    and so does the quantum built from it (its references are those of the
    dicts, dataset type by dataset type). *)
Theorem dedup_one_ref_per_instance (qlinks : list string) (taskDss : _TaskDatasetTypes)
    (rows : list DimensionRow) (tqi tqo : TaskQuanta) (row1 row2 : DimensionRow)
    (qkey : Key) (dsType : DatasetType) (ref1 ref2 : DatasetRef) :
  addRows qlinks taskDss ([], []) rows = inr (tqi, tqo) →
  row1 ∈ rows → row2 ∈ rows →
  quantumKey qlinks row1 = inr qkey → quantumKey qlinks row2 = inr qkey →
  datasetRefs row1 !! dsType = Some ref1 → datasetRefs row2 !! dsType = Some ref2 →
  dataId ref1 = dataId ref2 →
  ∃ qinputs qoutputs,
    dict_get qkey tqi = Some qinputs ∧ dict_get qkey tqo = Some qoutputs ∧
    (∀ skip tn quantum,
       makeQuantum skip tn qinputs qoutputs = inr (Some quantum) →
       predictedInputs quantum = chainValues qinputs ∧
       quantum_outputs quantum = chainValues qoutputs) ∧
    (dsType ∈ inputs taskDss →
       chainValues qinputs = concat (refsOf qinputs <$> dict_keys qinputs) ∧
       NoDup (dict_keys qinputs) ∧ dsType ∈ dict_keys qinputs ∧
       length (filter (λ r, dataId r = dataId ref1) (refsOf qinputs dsType)) = 1 ∧
       (refsTyped rows →
        length (filter (sameInstance dsType (dataId ref1)) (chainValues qinputs)) = 1)) ∧
    (dsType ∈ outputs taskDss →
       chainValues qoutputs = concat (refsOf qoutputs <$> dict_keys qoutputs) ∧
       NoDup (dict_keys qoutputs) ∧ dsType ∈ dict_keys qoutputs ∧
       length (filter (λ r, dataId r = dataId ref1) (refsOf qoutputs dsType)) = 1 ∧
       (refsTyped rows →
        length (filter (sameInstance dsType (dataId ref1)) (chainValues qoutputs)) = 1)).
Proof.
  intros [Hi Ho]%addRows_split Hrow1 Hrow2 Hk1 Hk2 Href1 Href2 Hid.
  destruct (addRows1_inr _ _ _ _ Hi) as (_ & _ & Hki & _).
  destruct (addRows1_inr _ _ _ _ Ho) as (_ & _ & Hko & _).
  destruct (proj2 (Hki qkey)) as [qin Hqin]; [eauto|].
  destruct (proj2 (Hko qkey)) as [qout Hqout]; [eauto|].
  exists qin, qout. split; [done|]. split; [done|]. split; [|split].
  - intros skip tn quantum. rewrite makeQuantum_cases.
    destruct (skip && _); [done|]. destruct (existsb _ _); [done|]. by intros [= <-].
  - intros Hd.
    destruct (addRows1_dedup _ _ _ _ _ _ _ _ Hi Hrow1 Hk1 Hd Href1) as (q & Hq & H).
    rewrite Hqin in Hq. simplify_eq. naive_solver.
  - intros Hd.
    destruct (addRows1_dedup _ _ _ _ _ _ _ _ Ho Hrow1 Hk1 Hd Href1) as (q & Hq & H).
    rewrite Hqout in Hq. simplify_eq. naive_solver.
Qed.

(** ** Row order *)
























Section RowOrder.
Context {Tree : Type}.
Variable Tree_str : Tree → string.
Variable ParserYacc_parse : string → string + option Tree.

End RowOrder.

(** ** Sample runs *)



Lemma summary_rows :
  addRows ["visit"] summaryTask ([], []) twoDetectors
  = inr ([(visit1, visit1Inputs)], [(visit1, visit1Outputs)]).
Proof. reflexivity. Qed.


Lemma summary_run :
  result (sampleRun summaryClass twoDetectors true None)
  = inr (sampleStore' summaryClass, summaryGraph).
Proof. reflexivity. Qed.



Lemma no_existing_output_witness : ref_id (summaryRef 1 None) = None.
Proof.
  apply (no_existing_output id sampleParse (sampleBuilder summaryClass twoDetectors true)
           sampleStore [1%positive] sampleOrigin None (sampleStore' summaryClass)
           summaryGraph (mkNodes (sampleTaskDef summaryClass) [visit1Quantum])
           visit1Quantum (summaryRef 1 None)).
  - apply summary_run.
  - left.
  - left.
  - left.
Defined.

Lemma dedup_one_ref_per_instance_witness :
  length (filter (λ r, dataId r = {[ "visit" := 1%Z ]}) (refsOf visit1Outputs visitSummary)) = 1.
Proof.
  destruct (dedup_one_ref_per_instance ["visit"] summaryTask twoDetectors
              [(visit1, visit1Inputs)] [(visit1, visit1Outputs)]
              (sampleRow 1 10 None) (sampleRow 1 11 None) visit1 visitSummary
              (summaryRef 1 None) (summaryRef 1 None))
    as (qin & qout & _ & Hout & _ & _ & Hcount).
  - apply summary_rows.
  - left.
  - right. left.
  - reflexivity.
  - reflexivity.
  - reflexivity.
  - reflexivity.
  - reflexivity.
  - injection Hout as <-.
    assert (visitSummary ∈ outputs summaryTask) as Hin by left.
    destruct (Hcount Hin) as (_ & _ & _ & Hone & _). exact Hone.
Defined.

Lemma schema_collected rows skip :
  result (collectPipeline (sampleBuilder schemaClass rows skip) sampleStore [1%positive])
  = inr (sampleStore' schemaClass, [schemaTask]).
Proof. reflexivity. Qed.

Lemma schema_reduction :
  _makeFullIODatasetTypes [schemaTask] = inr ({[ raw ]}, {[ visitSummary ]}, {[ schema ]}, ∅).
Proof. reflexivity. Qed.

Lemma schema_run_trace :
  trace (sampleRun schemaClass twoDetectors true None)
  = [EvLoadTaskClass "T"; EvParse ""; EvSelectDimensions None {[ raw ]} {[ visitSummary ]};
     EvFind "c1" schema; EvFind "c2" schema].
Proof. reflexivity. Qed.

Lemma init_input_error_follows_rows :
  result (sampleRun schemaClass twoDetectors true None) = inl (initInputMissing schema) ∧
  ¬ raisedBeforeRows (sampleRun schemaClass twoDetectors true None) schema.
Proof.
  split; [reflexivity|]. intros [_ Hno].
  apply (Hno None {[ raw ]} {[ visitSummary ]}). rewrite schema_run_trace.
  right. right. left.
Qed.

Lemma missing_init_input_witness :
  ∃ d', result (sampleRun schemaClass twoDetectors true None) = inl (initInputMissing d').
Proof.
  destruct (missing_init_input id sampleParse (sampleBuilder schemaClass twoDetectors true)
              sampleStore [1%positive] sampleOrigin None (sampleStore' schemaClass)
              [schemaTask] {[ raw ]} {[ visitSummary ]} {[ schema ]} ∅ None schema)
    as [Hmissing _].
  - apply schema_collected.
  - apply schema_reduction.
  - reflexivity.
  - destruct Hmissing as (d' & finds & _ & _ & Hres & _).
    + apply elem_of_singleton. reflexivity.
    + intros collection _. reflexivity.
    + exists d'. exact Hres.
Defined.


Lemma loadTaskClass_idempotent_frame_witness :
  ∃ h' taskDef',
    result (_loadTaskClass (sampleBuilder summaryClass [] true) sampleStore 1%positive)
      = inr (h', taskDef') ∧
    h' !! 1%positive = Some (mkTaskDef "T" (mkConfig ["visit"]) None "t") ∧
    _loadTaskClass (sampleBuilder summaryClass [] true) h' taskDef'
      = MkRun [] (inr (h', taskDef')).
Proof.
  destruct (loadTaskClass_idempotent_frame (sampleBuilder summaryClass [] true) sampleStore
              1%positive (mkTaskDef "T" (mkConfig ["visit"]) None "t") eq_refl)
    as (h' & l' & Hres & Hframe & _ & _ & Hidem).
  exists h', l'. split; [exact Hres|]. split; [|exact Hidem].
  apply Hframe. reflexivity.
Defined.

Lemma no_output_types_witness :
  makeTaskNodes (sampleBuilder readerClass twoDetectors true) twoDetectors readerTask
  = inr (mkNodes (taskDef readerTask) []).
Proof.
  destruct (no_output_types (sampleBuilder readerClass twoDetectors true) twoDetectors
              readerTask ["visit"] [(visit1, visit1Inputs)] [(visit1, [])])
    as (_ & _ & _ & Hskip & _).
  - reflexivity.
  - reflexivity.
  - reflexivity.
  - apply Hskip. reflexivity.
Defined.







(** ** Further properties of the assembly *)

(** ** The keys of the two dicts *)

Lemma addRows_keys qlinks t rows : ∀ tqi tqo tqi' tqo',
  dict_keys tqi = dict_keys tqo →
  addRows qlinks t (tqi, tqo) rows = inr (tqi', tqo') →
  dict_keys tqi' = dict_keys tqo'.
Proof.
  induction rows as [|row rows IH]; intros tqi tqo tqi' tqo' Hkeys.
  - by intros [= <- <-].
  - cbn [addRows]. rewrite addRow_split, !addRow1_unfold.
    destruct (quantumKey qlinks row) as [e|k]; [done|]. simpl.
    destruct (addDataRefs row (inputs t) _) as [e|qi]; [done|]. simpl.
    destruct (addDataRefs row (outputs t) _) as [e|qo]; [done|]. simpl.
    apply IH. rewrite !dict_keys_set.
    destruct (dict_get k tqi) as [q|] eqn:Hi, (dict_get k tqo) as [q'|] eqn:Ho;
      try by rewrite Hkeys.
    + apply dict_get_None in Ho. rewrite <- Hkeys in Ho.
      destruct Ho. apply dict_get_is_Some. eauto.
    + apply dict_get_None in Hi. rewrite Hkeys in Hi.
      destruct Hi. apply dict_get_is_Some. eauto.
Qed.

(** X: the two dicts of the row loop have the same keys in the same order,
    each once: the grouping keys of the rows. The subscript
    [taskQuantaOutputs[qkey]] of the quantum loop finds every key. *)
Theorem quantum_loop_keys (qlinks : list string) (taskDss : _TaskDatasetTypes)
    (rows : list DimensionRow) (tqi tqo : TaskQuanta) :
  addRows qlinks taskDss ([], []) rows = inr (tqi, tqo) →
  dict_keys tqi = dict_keys tqo ∧
  NoDup (dict_keys tqi) ∧
  (∀ k, k ∈ dict_keys tqi ↔ ∃ row, row ∈ rows ∧ quantumKey qlinks row = inr k) ∧
  (∀ k qinputs, (k, qinputs) ∈ tqi → is_Some (dict_get k tqo)).
Proof.
  intros Hr. pose proof (addRows_keys _ _ _ [] [] _ _ eq_refl Hr) as Hkeys.
  pose proof Hr as [Hi _]%addRows_split.
  destruct (addRows1_inr _ _ _ _ Hi) as (_ & [Hnd _] & Hk & _).
  split; [done|]. split; [done|]. split.
  - intros k. by rewrite <- dict_get_is_Some, Hk.
  - intros k qin Hin. apply dict_get_is_Some. rewrite <- Hkeys.
    apply list_elem_of_fmap. by exists (k, qin).
Qed.

(** ** The exceptions of the assembly of one task *)

Lemma subscript_inl {A} (o : option A) e : subscript o = inl e → e = KeyError ∧ o = None.
Proof. destruct o; [done|]. by intros [= <-]. Qed.

Lemma quantumLinks_inl dims names : ∀ acc e,
  quantumLinks dims names acc = inl e → e = KeyError.
Proof.
  induction names as [|n names IH]; intros acc e; [done|]. cbn [quantumLinks].
  destruct (dims !! n) as [links|]; simpl; [apply IH|]. by intros [= <-].
Qed.

Lemma quantumKey_inl qlinks row e : quantumKey qlinks row = inl e → e = KeyError.
Proof.
  unfold quantumKey. induction qlinks as [|col qlinks IH]; [done|]. rewrite mapM_cons.
  destruct (row_dataId row !! col) as [v|]; simpl; [|by intros [= <-]].
  destruct (mapM _ qlinks) as [e'|k]; simpl; [|done]. intros [= <-]. by apply IH.
Qed.

Lemma addDataRefs_inl row ds : ∀ q e, addDataRefs row ds q = inl e → e = KeyError.
Proof.
  induction ds as [|d ds IH]; intros q e; [done|]. rewrite addDataRefs_cons.
  destruct (datasetRefs row !! d) as [r|]; simpl; [apply IH|]. by intros [= <-].
Qed.

Lemma addRow1_inl qlinks ds tq row e : addRow1 qlinks ds tq row = inl e → e = KeyError.
Proof.
  rewrite addRow1_unfold. destruct (quantumKey qlinks row) as [e'|k] eqn:Hk; simpl.
  - intros [= <-]. by eapply quantumKey_inl.
  - destruct (addDataRefs row ds _) as [e'|q] eqn:Hq; simpl; [|done].
    intros [= <-]. by eapply addDataRefs_inl.
Qed.

Lemma addRows_inl qlinks t rows : ∀ st e, addRows qlinks t st rows = inl e → e = KeyError.
Proof.
  induction rows as [|row rows IH]; intros [tqi tqo] e; [done|]. cbn [addRows].
  rewrite addRow_split.
  destruct (addRow1 qlinks (inputs t) tqi row) as [e'|tqi'] eqn:Hi; simpl.
  { intros [= <-]. by eapply addRow1_inl. }
  destruct (addRow1 qlinks (outputs t) tqo row) as [e'|tqo'] eqn:Ho; simpl.
  { intros [= <-]. by eapply addRow1_inl. }
  apply IH.
Qed.

Lemma rowOk_app qlinks ds1 ds2 row :
  rowOk qlinks (ds1 ++ ds2) row ↔ rowOk qlinks ds1 row ∧ rowOk qlinks ds2 row.
Proof.
  unfold rowOk. setoid_rewrite elem_of_app. naive_solver.
Qed.

Lemma addRows_total qlinks t rows :
  Forall (rowOk qlinks (inputs t ++ outputs t)) rows →
  ∃ tqi tqo, addRows qlinks t ([], []) rows = inr (tqi, tqo).
Proof.
  intros HF.
  destruct (addRows1_total qlinks (inputs t) rows []) as [tqi Hi].
  { eapply Forall_impl; [done|]. intros row. rewrite rowOk_app. tauto. }
  destruct (addRows1_total qlinks (outputs t) rows []) as [tqo Ho].
  { eapply Forall_impl; [done|]. intros row. rewrite rowOk_app. tauto. }
  exists tqi, tqo. by apply addRows_split.
Qed.

Lemma addRows_rowOk qlinks t rows tqi tqo :
  addRows qlinks t ([], []) rows = inr (tqi, tqo) →
  Forall (rowOk qlinks (inputs t ++ outputs t)) rows.
Proof.
  intros [Hi Ho]%addRows_split.
  destruct (addRows1_inr _ _ _ _ Hi) as (Hoki & _).
  destruct (addRows1_inr _ _ _ _ Ho) as (Hoko & _).
  rewrite Forall_forall in Hoki, Hoko. apply Forall_forall. intros row Hrow.
  apply rowOk_app. auto.
Qed.

Lemma makeQuanta_inl_inv skip tn tqo items e :
  makeQuanta skip tn tqo items [] = inl e →
  ∃ k qin, (k, qin) ∈ items ∧
    ((dict_get k tqo = None ∧ e = KeyError) ∨
     ∃ qout, dict_get k tqo = Some qout ∧ makeQuantum skip tn qin qout = inl e).
Proof.
  induction items as [|[k qin] items IH]; [done|]. rewrite makeQuanta_cons.
  destruct (dict_get k tqo) as [qout|] eqn:Hk; simpl.
  - destruct (makeQuantum skip tn qin qout) as [e'|v] eqn:Hv; simpl.
    + intros [= <-]. exists k, qin. split; [left|]. right. eauto.
    + destruct (makeQuanta skip tn tqo items []) as [e'|qs]; simpl; [|done].
      intros [= <-]. destruct (IH eq_refl) as (k' & qin' & Hin & H).
      exists k', qin'. split; [by right|done].
  - intros [= <-]. exists k, qin. split; [left|]. by left.
Qed.

Lemma makeQuantum_inl skip tn qin qout e :
  makeQuantum skip tn qin qout = inl e →
  e = OutputExistsError tn (chainValues qout) ∧
  Exists (λ ref, is_Some (ref_id ref)) (chainValues qout) ∧
  (skip = true → Exists (λ ref, ref_id ref = None) (chainValues qout)).
Proof.
  rewrite makeQuantum_cases.
  destruct (skip && forallb exists_ (chainValues qout)) eqn:Hskip; [done|].
  destruct (existsb exists_ (chainValues qout)) eqn:Hany; [|done]. intros [= <-].
  split; [done|]. split.
  - apply existsb_exists in Hany as (ref & Hin%list_elem_of_In & Hex).
    apply Exists_exists. exists ref. split; [done|]. unfold exists_ in Hex.
    destruct (ref_id ref); [eauto|done].
  - intros ->. simpl in Hskip.
    assert (¬ forallb exists_ (chainValues qout) = true) as Hn by congruence.
    rewrite forallb_forall in Hn. apply Exists_exists.
    destruct (decide (Exists (λ ref, ref_id ref = None) (chainValues qout)))
      as [Hex|Hnex]; [by apply Exists_exists in Hex|].
    destruct Hn. intros ref Hin%list_elem_of_In. unfold exists_.
    destruct (ref_id ref) eqn:Hid; [done|]. destruct Hnex.
    apply Exists_exists. eauto.
Qed.

(** X: the exceptions of [makeTaskNodes]. It raises [KeyError] exactly when
    a quantum dimension of the task is unknown to the registry or a row
    lacks a link dimension or the reference of one of the task's dataset
    types; every other exception is the [OutputExistsError] of a grouping
    key, with the task's name and the candidate outputs of that key, one of
    which exists. *)
Theorem makeTaskNodes_exceptions (self : GraphBuilder) (rows : list DimensionRow)
    (taskDss : _TaskDatasetTypes) :
  let links := quantumLinks (registry_dimensions (registry self))
                 (quantum_dimensions (config (taskDef taskDss))) [] in
  (makeTaskNodes self rows taskDss = inl KeyError ↔
     links = inl KeyError ∨
     ∃ qlinks, links = inr qlinks ∧
       ¬ Forall (rowOk qlinks (inputs taskDss ++ outputs taskDss)) rows) ∧
  (∀ e, makeTaskNodes self rows taskDss = inl e → e ≠ KeyError →
     ∃ qkey qinputs qoutputs,
       groupOf self rows taskDss qkey qinputs qoutputs ∧
       e = OutputExistsError (taskName (taskDef taskDss)) (chainValues qoutputs) ∧
       Exists (λ ref, is_Some (ref_id ref)) (chainValues qoutputs) ∧
       (skipExisting self = true →
        Exists (λ ref, ref_id ref = None) (chainValues qoutputs))).
Proof.
  intros links. unfold makeTaskNodes. fold links.
  destruct links as [e0|ql] eqn:Hl; simpl.
  { apply quantumLinks_inl in Hl as ->. split; [by split; [left|]|]. by intros e [= <-]. }
  destruct (addRows ql taskDss ([], []) rows) as [e0|[tqi tqo]] eqn:Hr; simpl.
  { apply addRows_inl in Hr as He0. subst e0. split.
    - split; [|done]. intros _. right. exists ql. split; [done|].
      intros (tqi & tqo & Hok)%addRows_total. congruence.
    - by intros e [= <-]. }
  pose proof (addRows_keys _ _ _ [] [] _ _ eq_refl Hr) as Hkeys.
  assert (∀ e, (quanta ← makeQuanta (skipExisting self) (taskName (taskDef taskDss)) tqo tqi [];
                mret (mkNodes (taskDef taskDss) quanta)) = inl e →
    ∃ k qin qout, dict_get k tqi = Some qin ∧ dict_get k tqo = Some qout ∧
      makeQuantum (skipExisting self) (taskName (taskDef taskDss)) qin qout = inl e) as Hinv.
  { intros e. destruct (makeQuanta _ _ _ _ _) as [e'|qs] eqn:Hqs; [|done]. simpl.
    intros [= <-]. apply makeQuanta_inl_inv in Hqs as (k & qin & Hin & Hcase).
    pose proof Hr as [Hi _]%addRows_split.
    destruct (addRows1_inr _ _ _ _ Hi) as (_ & [Hnd _] & _).
    destruct Hcase as [[Hnone _]|(qout & Hout & Hq)].
    - apply dict_get_None in Hnone. rewrite <- Hkeys in Hnone. destruct Hnone.
      apply list_elem_of_fmap. by exists (k, qin).
    - exists k, qin, qout. split; [by apply dict_elem_get|done]. }
  split.
  - split.
    + intros (k & qin & qout & _ & _ & [? _]%makeQuantum_inl)%Hinv. done.
    + intros [?|(ql' & [= <-] & Hnot)]; [done|]. destruct Hnot.
      by eapply addRows_rowOk.
  - intros e (k & qin & qout & Hi & Ho & Hq)%Hinv _.
    destruct (makeQuantum_inl _ _ _ _ _ Hq) as (-> & Hex & Hskip).
    exists k, qin, qout. split; [|done]. exists ql, tqi, tqo. done.
Qed.

(** ** What a quantum holds *)

Lemma chainValues_rows qlinks ds rows tq k q ref :
  addRows1 qlinks ds [] rows = inr tq → dict_get k tq = Some q →
  ref ∈ chainValues q →
  ∃ row d, row ∈ rows ∧ quantumKey qlinks row = inr k ∧ d ∈ ds ∧
           datasetRefs row !! d = Some ref.
Proof.
  intros Htq Hq Href. destruct (addRows1_inr _ _ _ _ Htq) as (_ & Hwf & _ & Hfrom & _).
  apply (chainValues_elem q ref (wf3_lookup _ _ _ Hwf Hq)) in Href as (d & x & Hget).
  destruct (Hfrom k d x ref) as (row & ? & ? & ? & ? & _); [unfold get3; by rewrite Hq|].
  exists row, d. done.
Qed.

Lemma rows_chainValues qlinks ds rows tq k q row d ref :
  addRows1 qlinks ds [] rows = inr tq → dict_get k tq = Some q →
  row ∈ rows → quantumKey qlinks row = inr k → d ∈ ds →
  datasetRefs row !! d = Some ref →
  ∃ ref', ref' ∈ chainValues q ∧ dataId ref' = dataId ref.
Proof.
  intros Htq Hq Hrow Hk Hd Href.
  destruct (addRows1_inr _ _ _ _ Htq) as (_ & Hwf & _ & Hfrom & Hto).
  destruct (Hto row k d ref Hrow Hk Hd Href) as [ref' Hget].
  destruct (Hfrom _ _ _ _ Hget) as (_ & _ & _ & _ & _ & Hkey%dataRefKey_inj).
  exists ref'. split; [|done].
  apply (chainValues_elem q ref' (wf3_lookup _ _ _ Hwf Hq)).
  exists d, (_dataRefKey ref). unfold get3 in Hget. by rewrite Hq in Hget.
Qed.

(** X: every quantum of a task is the quantum of one grouping key: its
    outputs and predicted inputs are references that rows of that key give
    for the output and input dataset types of the task, and every dataset
    instance that a row of the key refers to is among them. *)
Theorem quantum_of_one_key (self : GraphBuilder) (rows : list DimensionRow)
    (taskDss : _TaskDatasetTypes) (nodes : QuantumGraphTaskNodes) (quantum : Quantum) :
  makeTaskNodes self rows taskDss = inr nodes → quantum ∈ quanta nodes →
  ∃ qlinks qkey,
    quantumLinks (registry_dimensions (registry self))
                 (quantum_dimensions (config (taskDef taskDss))) [] = inr qlinks ∧
    (∀ ref, ref ∈ quantum_outputs quantum →
       ∃ row d, row ∈ rows ∧ quantumKey qlinks row = inr qkey ∧ d ∈ outputs taskDss ∧
                datasetRefs row !! d = Some ref) ∧
    (∀ ref, ref ∈ predictedInputs quantum →
       ∃ row d, row ∈ rows ∧ quantumKey qlinks row = inr qkey ∧ d ∈ inputs taskDss ∧
                datasetRefs row !! d = Some ref) ∧
    (∀ row d ref, row ∈ rows → quantumKey qlinks row = inr qkey →
       datasetRefs row !! d = Some ref →
       (d ∈ outputs taskDss →
        ∃ ref', ref' ∈ quantum_outputs quantum ∧ dataId ref' = dataId ref) ∧
       (d ∈ inputs taskDss →
        ∃ ref', ref' ∈ predictedInputs quantum ∧ dataId ref' = dataId ref)).
Proof.
  intros (ql & tqi & tqo & Hl & Hr & Hqs & _)%makeTaskNodes_inr Hq.
  destruct (makeQuanta_from _ _ _ _ _ _ Hqs Hq) as (k & qin & qout & Hin & Hout & Hmq).
  pose proof Hr as [Hi Ho]%addRows_split.
  destruct (addRows1_inr _ _ _ _ Hi) as (_ & [Hnd _] & _).
  pose proof (dict_elem_get _ _ _ Hnd Hin) as Hgin.
  rewrite makeQuantum_cases in Hmq.
  destruct (skipExisting self && _); [done|]. destruct (existsb _ _); [done|].
  injection Hmq as <-. exists ql, k. simpl. split; [done|]. split; [|split].
  - intros ref Href. by eapply chainValues_rows.
  - intros ref Href. by eapply chainValues_rows.
  - intros row d ref Hrow Hk Href. split; intros Hd.
    + by apply (rows_chainValues ql (outputs taskDss) rows tqo k qout row d ref).
    + by apply (rows_chainValues ql (inputs taskDss) rows tqi k qin row d ref).
Qed.

(** ** How many quanta *)

Lemma makeQuanta_length skip tn tqo items quanta :
  makeQuanta skip tn tqo items [] = inr quanta →
  length quanta ≤ length items ∧ (skip = false → length quanta = length items).
Proof.
  revert quanta. induction items as [|[k qin] items IH]; intros quanta.
  - intros [= <-]. done.
  - rewrite makeQuanta_cons. destruct (dict_get k tqo) as [qout|]; [|done]. simpl.
    destruct (makeQuantum skip tn qin qout) as [e|v] eqn:Hv; [done|]. simpl.
    destruct (makeQuanta skip tn tqo items []) as [e|qs]; [done|]. simpl.
    intros [= <-]. destruct (IH qs eq_refl) as [Hle Heq].
    rewrite makeQuantum_cases in Hv. destruct v as [q|]; simpl.
    + split; [lia|]. intros Hs. rewrite (Heq Hs). done.
    + split; [lia|]. intros ->. simpl in Hv. by destruct (existsb _ _).
Qed.

(** X: a task has at most one quantum for each grouping key of the rows,
    and exactly one for each when [skipExisting] is off. *)
Theorem quanta_per_key (self : GraphBuilder) (rows : list DimensionRow)
    (taskDss : _TaskDatasetTypes) (nodes : QuantumGraphTaskNodes) :
  makeTaskNodes self rows taskDss = inr nodes →
  ∃ qlinks keys,
    quantumLinks (registry_dimensions (registry self))
                 (quantum_dimensions (config (taskDef taskDss))) [] = inr qlinks ∧
    NoDup keys ∧
    (∀ k, k ∈ keys ↔ ∃ row, row ∈ rows ∧ quantumKey qlinks row = inr k) ∧
    length (quanta nodes) ≤ length keys ∧
    (skipExisting self = false → length (quanta nodes) = length keys).
Proof.
  intros (ql & tqi & tqo & Hl & Hr & Hqs & _)%makeTaskNodes_inr.
  pose proof Hr as [Hi _]%addRows_split.
  destruct (addRows1_inr _ _ _ _ Hi) as (_ & [Hnd _] & Hk & _).
  destruct (makeQuanta_length _ _ _ _ _ Hqs) as [Hle Heq].
  exists ql, (dict_keys tqi). split; [done|]. split; [done|]. split.
  - intros k. by rewrite <- dict_get_is_Some, Hk.
  - unfold dict_keys. by rewrite length_fmap.
Qed.

Lemma makeQuanta_all_skipped skip tn (tqo items : TaskQuanta) :
  (∀ k qin, (k, qin) ∈ items →
     ∃ qout, dict_get k tqo = Some qout ∧ makeQuantum skip tn qin qout = inr None) →
  makeQuanta skip tn tqo items [] = inr [].
Proof.
  induction items as [|[k qin] items IH]; intros Hall; [done|].
  rewrite makeQuanta_cons. destruct (Hall k qin) as (qout & -> & Hq); [left|].
  simpl. rewrite Hq. simpl. rewrite IH; [done|].
  intros k' qin' Hin. apply Hall. by right.
Qed.

(** X: when all the output references of the rows exist and [skipExisting]
    is on, the task gets no quantum and no exception. *)
Theorem finished_task_no_quanta (self : GraphBuilder) (rows : list DimensionRow)
    (taskDss : _TaskDatasetTypes) (qlinks : list string) :
  skipExisting self = true →
  quantumLinks (registry_dimensions (registry self))
               (quantum_dimensions (config (taskDef taskDss))) [] = inr qlinks →
  Forall (rowOk qlinks (inputs taskDss ++ outputs taskDss)) rows →
  (∀ row d ref, row ∈ rows → d ∈ outputs taskDss →
     datasetRefs row !! d = Some ref → is_Some (ref_id ref)) →
  makeTaskNodes self rows taskDss = inr (mkNodes (taskDef taskDss) []).
Proof.
  intros Hskip Hl Hok Hexist. destruct (addRows_total _ _ _ Hok) as (tqi & tqo & Hr).
  rewrite (makeTaskNodes_unfold _ _ _ _ _ _ Hl Hr), Hskip.
  rewrite makeQuanta_all_skipped; [done|]. intros k qin Hin.
  pose proof (addRows_keys _ _ _ [] [] _ _ eq_refl Hr) as Hkeys.
  pose proof Hr as [_ Ho]%addRows_split.
  destruct (proj2 (dict_get_is_Some k tqo)) as [qout Hout].
  { rewrite <- Hkeys. apply list_elem_of_fmap. by exists (k, qin). }
  exists qout. split; [done|]. rewrite makeQuantum_cases. simpl.
  assert (forallb exists_ (chainValues qout) = true) as ->; [|done].
  apply forallb_forall. intros ref Href%list_elem_of_In.
  destruct (chainValues_rows _ _ _ _ _ _ _ Ho Hout Href) as (row & d & Hrow & _ & Hd & Hr').
  destruct (Hexist row d ref Hrow Hd Hr') as [i Hi]. unfold exists_. by rewrite Hi.
Qed.
